(** * Connect Four minimax engine: a shallow embedding of
      [connect_four_ai_core.py] and the properties of its search.

    The board is the NumPy array of the program, kept as a list of rows
    (row 0 is the bottom row) of integer cells.  Reads that NumPy would
    reject raise [IndexError]; the search runs in a state-and-error monad
    whose state holds the object store (boards are mutable objects handed
    around by reference) and the random source behind [random.choice]. *)

From Stdlib Require Import ZArith List Bool Lia Sorted.
From stdpp Require Import base list.
Import ListNotations.
Local Open Scope Z_scope.

(** ** Game constants *)

Definition ROW_COUNT : nat := 6.
Definition COLUMN_COUNT : nat := 7.
Definition PLAYER_PIECE : Z := 1.
Definition AI_PIECE : Z := 2.
Definition EMPTY : Z := 0.
Definition WINDOW_LENGTH : nat := 4.

(** ** Exceptions and the error monad of the read-only helpers *)

Inductive exn : Type :=
| IndexError        (* an index outside an array axis, or a choice from an empty list *)
| DanglingReference (* a location with no object: no Python program can build one *).

Inductive result (A : Type) : Type :=
| Ok (a : A)
| Raise (e : exn).
Arguments Ok {A} a.
Arguments Raise {A} e.

Definition bind {A B} (m : result A) (k : A -> result B) : result B :=
  match m with
  | Ok a => k a
  | Raise e => Raise e
  end.

Notation "x <- m ;; k" := (bind m (fun x => k))
  (at level 100, m at next level, right associativity).

(** [range n] is Python's [range(n)]; [range_from a b] is [range(a, b)]. *)
Definition range (n : nat) : list nat := seq 0 n.
Definition range_from (a b : nat) : list nat := seq a (b - a).

(** [for x in xs: if f x: return True] followed by a fall-through. *)
Fixpoint any_of {A} (xs : list A) (f : A -> result bool) : result bool :=
  match xs with
  | [] => Ok false
  | x :: rest => r <- f x ;; if r then Ok true else any_of rest f
  end.

(** Python's [all(f x for x in xs)]: the generator stops at the first
    false element, so later elements are not evaluated. *)
Fixpoint all_of {A} (xs : list A) (f : A -> result bool) : result bool :=
  match xs with
  | [] => Ok true
  | x :: rest => r <- f x ;; if r then all_of rest f else Ok false
  end.

(** A [for] loop that threads an accumulator. *)
Fixpoint for_fold {A S} (xs : list A) (s : S) (body : S -> A -> result S)
  : result S :=
  match xs with
  | [] => Ok s
  | x :: rest => s' <- body s x ;; for_fold rest s' body
  end.

(** ** The board *)

Abbreviation board := (list (list Z)).

(** [board[r][c]] for non-negative indices. *)
Definition get (b : board) (r c : nat) : result Z :=
  match b !! r with
  | Some row =>
      match row !! c with
      | Some v => Ok v
      | None => Raise IndexError
      end
  | None => Raise IndexError
  end.

(** [list(board[r, :])] *)
Definition row_array (b : board) (r : nat) : result (list Z) :=
  match b !! r with
  | Some row => Ok row
  | None => Raise IndexError
  end.

(** [list(board[:, c])] *)
Fixpoint col_array (b : board) (c : nat) : result (list Z) :=
  match b with
  | [] => Ok []
  | row :: rest =>
      match row !! c with
      | Some v => vs <- col_array rest c ;; Ok (v :: vs)
      | None => Raise IndexError
      end
  end.

(** The list slice [l[i:j]], which never raises. *)
Definition slice {A} (l : list A) (i j : nat) : list A :=
  take (j - i) (drop i l).

(** [l.count(x)] *)
Fixpoint count (l : list Z) (x : Z) : Z :=
  match l with
  | [] => 0
  | y :: rest => (if y =? x then 1 else 0) + count rest x
  end.

(** The shape every board of the program has:
    [np.zeros((ROW_COUNT, COLUMN_COUNT))]. *)
Definition wf_board (b : board) : Prop :=
  length b = ROW_COUNT /\ Forall (fun row => length row = COLUMN_COUNT) b.

(** ** Board helper functions *)

Definition is_valid_location (b : board) (col : nat) : result bool :=
  v <- get b (ROW_COUNT - 1) col ;;
  Ok (v =? EMPTY).

(** The loop of [get_next_open_row]; falling through returns [None]. *)
Fixpoint first_open_row (b : board) (col : nat) (rows : list nat)
  : result (option nat) :=
  match rows with
  | [] => Ok None
  | r :: rest =>
      v <- get b r col ;;
      if v =? EMPTY then Ok (Some r) else first_open_row b col rest
  end.

Definition get_next_open_row (b : board) (col : nat) : result (option nat) :=
  first_open_row b col (range ROW_COUNT).

Definition get_valid_locations (b : board) : result (list nat) :=
  for_fold (range COLUMN_COUNT) []
    (fun valid_locations col =>
       ok <- is_valid_location b col ;;
       Ok (if ok then valid_locations ++ [col] else valid_locations)).

Definition is_winning_move (b : board) (piece : Z) : result bool :=
  (* horizontal *)
  h <- any_of (range (COLUMN_COUNT - 3)) (fun c =>
         any_of (range ROW_COUNT) (fun r =>
           all_of (range 4) (fun i =>
             v <- get b r (c + i) ;; Ok (v =? piece)))) ;;
  if h then Ok true else
  (* vertical *)
  v <- any_of (range COLUMN_COUNT) (fun c =>
         any_of (range (ROW_COUNT - 3)) (fun r =>
           all_of (range 4) (fun i =>
             v <- get b (r + i) c ;; Ok (v =? piece)))) ;;
  if v then Ok true else
  (* positively sloped diagonals *)
  p <- any_of (range (COLUMN_COUNT - 3)) (fun c =>
         any_of (range (ROW_COUNT - 3)) (fun r =>
           all_of (range 4) (fun i =>
             v <- get b (r + i) (c + i) ;; Ok (v =? piece)))) ;;
  if p then Ok true else
  (* negatively sloped diagonals *)
  n <- any_of (range (COLUMN_COUNT - 3)) (fun c =>
         any_of (range_from 3 ROW_COUNT) (fun r =>
           all_of (range 4) (fun i =>
             v <- get b (r - i) (c + i) ;; Ok (v =? piece)))) ;;
  if n then Ok true else Ok false.

(** [a or b or c] evaluates left to right and stops at the first true. *)
Definition is_terminal_node (b : board) : result bool :=
  w1 <- is_winning_move b PLAYER_PIECE ;;
  if w1 then Ok true else
  w2 <- is_winning_move b AI_PIECE ;;
  if w2 then Ok true else
  vs <- get_valid_locations b ;;
  Ok (Nat.eqb (length vs) 0).

(** ** Heuristic *)

Definition evaluate_window (window : list Z) (piece : Z) : Z :=
  let score := 0 in
  let opp_piece := if piece =? PLAYER_PIECE then AI_PIECE else PLAYER_PIECE in
  let score :=
    if count window piece =? 4 then score + 100000
    else if (count window piece =? 3) && (count window EMPTY =? 1)
         then score + 50
    else if (count window piece =? 2) && (count window EMPTY =? 2)
         then score + 5
    else score in
  let score :=
    if (count window opp_piece =? 3) && (count window EMPTY =? 1)
    then score - 4000 else score in
  score.

Definition score_position (b : board) (piece : Z) : result Z :=
  let score := 0 in
  (* 1. center column *)
  center_array <- col_array b (COLUMN_COUNT / 2) ;;
  let center_count := count center_array piece in
  let score := score + center_count * 3 in
  (* 2. horizontal *)
  score <- for_fold (range ROW_COUNT) score (fun score r =>
    row <- row_array b r ;;
    for_fold (range (COLUMN_COUNT - 3)) score (fun score c =>
      let window := slice row c (c + WINDOW_LENGTH) in
      Ok (score + evaluate_window window piece))) ;;
  (* 3. vertical *)
  score <- for_fold (range COLUMN_COUNT) score (fun score c =>
    col <- col_array b c ;;
    for_fold (range (ROW_COUNT - 3)) score (fun score r =>
      let window := slice col r (r + WINDOW_LENGTH) in
      Ok (score + evaluate_window window piece))) ;;
  (* 4. diagonals *)
  score <- for_fold (range (ROW_COUNT - 3)) score (fun score r =>
    for_fold (range (COLUMN_COUNT - 3)) score (fun score c =>
      window_pos <- for_fold (range WINDOW_LENGTH) [] (fun w i =>
                      v <- get b (r + i) (c + i) ;; Ok (w ++ [v])) ;;
      let score := score + evaluate_window window_pos piece in
      window_neg <- for_fold (range WINDOW_LENGTH) [] (fun w i =>
                      v <- get b (r + 3 - i) (c + i) ;; Ok (w ++ [v])) ;;
      Ok (score + evaluate_window window_neg piece))) ;;
  Ok score.

(** ** Scores: Python integers together with [math.inf] and [-math.inf] *)

Inductive ext : Type :=
| NegInf
| Fin (z : Z)
| PosInf.

(** [x < y] *)
Definition ext_ltb (x y : ext) : bool :=
  match x, y with
  | NegInf, NegInf => false
  | NegInf, _ => true
  | Fin a, Fin b => a <? b
  | Fin _, PosInf => true
  | Fin _, NegInf => false
  | PosInf, _ => false
  end.

(** [x >= y] *)
Definition ext_geb (x y : ext) : bool := negb (ext_ltb x y).

(** [max(x, y)] and [min(x, y)]: the first argument wins a tie. *)
Definition ext_max (x y : ext) : ext := if ext_ltb x y then y else x.
Definition ext_min (x y : ext) : ext := if ext_ltb y x then y else x.

Definition WIN_SCORE : Z := 100000000000000.

(** ** The object store and the random source *)

Abbreviation loc := nat.

Record state : Type := mkState {
  heap : list board;     (* the board objects allocated so far *)
  rng : nat -> nat       (* the draws the random generator will make *)
}.

Definition M (A : Type) : Type := state -> result (A * state).

Definition ret {A} (a : A) : M A := fun st => Ok (a, st).

Definition mbind {A B} (m : M A) (k : A -> M B) : M B :=
  fun st =>
    match m st with
    | Ok (a, st') => k a st'
    | Raise e => Raise e
    end.

Notation "x <~ m ;; k" := (mbind m (fun x => k))
  (at level 100, m at next level, right associativity).

(** A read-only helper run on the current contents of an object. *)
Definition lift {A} (m : result A) : M A :=
  fun st =>
    match m with
    | Ok a => Ok (a, st)
    | Raise e => Raise e
    end.

Definition load (l : loc) : M board :=
  fun st =>
    match heap st !! l with
    | Some b => Ok (b, st)
    | None => Raise DanglingReference
    end.

(** [board.copy()]: a new object with the same contents. *)
Definition copy (l : loc) : M loc :=
  fun st =>
    match heap st !! l with
    | Some b => Ok (length (heap st), mkState (heap st ++ [b]) (rng st))
    | None => Raise DanglingReference
    end.

(** [a[row][col] = v] on the contents of a two-dimensional array.  With an
    integer [row] this writes one cell.  With [row = None] NumPy reads the
    index as [np.newaxis]: [a[None]] is a view of shape (1, rows, columns),
    so [a[None][0]] is the whole array and the assignment fills every cell,
    while [a[None][col]] for [col > 0] is out of bounds. *)
Definition setitem (b : board) (row : option nat) (col : nat) (v : Z)
  : result board :=
  match row with
  | Some r =>
      match b !! r with
      | Some cells =>
          if (col <? length cells)%nat
          then Ok (<[r := <[col := v]> cells]> b)
          else Raise IndexError
      | None => Raise IndexError
      end
  | None =>
      if (col =? 0)%nat then Ok (map (map (fun _ => v)) b)
      else Raise IndexError
  end.

(** [temp_board[row][col] = v], in place on the object at [l]. *)
Definition store (l : loc) (row : option nat) (col : nat) (v : Z) : M unit :=
  fun st =>
    match heap st !! l with
    | Some b =>
        match setitem b row col v with
        | Ok b' => Ok (tt, mkState (<[l := b']> (heap st)) (rng st))
        | Raise e => Raise e
        end
    | None => Raise DanglingReference
    end.

(** [random.choice(seq)] *)
Definition random_choice (xs : list nat) : M nat :=
  fun st =>
    match xs with
    | [] => Raise IndexError
    | x :: _ =>
        Ok (nth (rng st 0%nat mod length xs) xs x,
            mkState (heap st) (fun k => rng st (S k)))
    end.

(** ** Minimax with alpha-beta pruning *)

(** The three statements that record a move in both loops of [minimax]:
    [row = get_next_open_row(board, col)], [temp_board = board.copy()],
    [temp_board[row][col] = piece]. *)
Definition apply_move (board : loc) (col : nat) (piece : Z) : M loc :=
  b <~ load board ;;
  row <~ lift (get_next_open_row b col) ;;
  temp_board <~ copy board ;;
  _ <~ store temp_board row col piece ;;
  ret temp_board.

Section Loops.
(** The recursive call [minimax(temp_board, depth - 1, alpha, beta, _)]. *)
Variable rec : loc -> ext -> ext -> M (option nat * ext).

Fixpoint max_loop (board : loc) (cols : list nat) (value : ext)
    (column : nat) (alpha beta : ext) : M (nat * ext) :=
  match cols with
  | [] => ret (column, value)
  | col :: rest =>
      temp_board <~ apply_move board col AI_PIECE ;;
      r <~ rec temp_board alpha beta ;;
      let new_score := snd r in
      let '(value, column) :=
        if ext_ltb value new_score then (new_score, col)
        else (value, column) in
      let alpha := ext_max alpha value in
      if ext_geb alpha beta then ret (column, value)
      else max_loop board rest value column alpha beta
  end.

Fixpoint min_loop (board : loc) (cols : list nat) (value : ext)
    (column : nat) (alpha beta : ext) : M (nat * ext) :=
  match cols with
  | [] => ret (column, value)
  | col :: rest =>
      temp_board <~ apply_move board col PLAYER_PIECE ;;
      r <~ rec temp_board alpha beta ;;
      let new_score := snd r in
      let '(value, column) :=
        if ext_ltb new_score value then (new_score, col)
        else (value, column) in
      let beta := ext_min beta value in
      if ext_geb alpha beta then ret (column, value)
      else min_loop board rest value column alpha beta
  end.
End Loops.

(** The leaf of the search: [depth == 0 or is_terminal]. *)
Definition leaf_score (b : board) (is_terminal : bool)
  : result (option nat * ext) :=
  if is_terminal then
    ai <- is_winning_move b AI_PIECE ;;
    if ai then Ok (None, Fin WIN_SCORE) else
    pl <- is_winning_move b PLAYER_PIECE ;;
    if pl then Ok (None, Fin (- WIN_SCORE)) else
    Ok (None, Fin 0)
  else
    s <- score_position b AI_PIECE ;;
    Ok (None, Fin s).

(** [depth] counts the plies left; the program starts it at
    [SEARCH_DEPTH = 4] and only ever decrements it, so it is a natural
    number here. *)
Fixpoint minimax (depth : nat) (board : loc) (alpha beta : ext)
    (maximizing_player : bool) : M (option nat * ext) :=
  b <~ load board ;;
  valid_locations <~ lift (get_valid_locations b) ;;
  is_terminal <~ lift (is_terminal_node b) ;;
  match depth with
  | O => lift (leaf_score b is_terminal)
  | S depth' =>
      if is_terminal then lift (leaf_score b is_terminal)
      else if maximizing_player then
        let value := NegInf in
        column <~ random_choice valid_locations ;;
        r <~ max_loop (fun l a b => minimax depth' l a b false)
               board valid_locations value column alpha beta ;;
        ret (Some (fst r), snd r)
      else
        let value := PosInf in
        column <~ random_choice valid_locations ;;
        r <~ min_loop (fun l a b => minimax depth' l a b true)
               board valid_locations value column alpha beta ;;
        ret (Some (fst r), snd r)
  end.

(** ** The search on board values

    The same search with boards as values and the first valid column as the
    seed of the best column: the reference point for what [minimax]
    computes (the store and the random source are gone). *)

Definition drop_piece (b : board) (col : nat) (piece : Z) : result board :=
  row <- get_next_open_row b col ;;
  setitem b row col piece.

Definition first_choice (xs : list nat) : result nat :=
  match xs with
  | [] => Raise IndexError
  | x :: _ => Ok x
  end.

Section Scans.
Variable rec : board -> ext -> ext -> result (option nat * ext).

Fixpoint max_scan (b : board) (cols : list nat) (value : ext)
    (column : nat) (alpha beta : ext) : result (nat * ext) :=
  match cols with
  | [] => Ok (column, value)
  | col :: rest =>
      temp_board <- drop_piece b col AI_PIECE ;;
      r <- rec temp_board alpha beta ;;
      let new_score := snd r in
      let '(value, column) :=
        if ext_ltb value new_score then (new_score, col)
        else (value, column) in
      let alpha := ext_max alpha value in
      if ext_geb alpha beta then Ok (column, value)
      else max_scan b rest value column alpha beta
  end.

Fixpoint min_scan (b : board) (cols : list nat) (value : ext)
    (column : nat) (alpha beta : ext) : result (nat * ext) :=
  match cols with
  | [] => Ok (column, value)
  | col :: rest =>
      temp_board <- drop_piece b col PLAYER_PIECE ;;
      r <- rec temp_board alpha beta ;;
      let new_score := snd r in
      let '(value, column) :=
        if ext_ltb new_score value then (new_score, col)
        else (value, column) in
      let beta := ext_min beta value in
      if ext_geb alpha beta then Ok (column, value)
      else min_scan b rest value column alpha beta
  end.
End Scans.

Fixpoint search (depth : nat) (b : board) (alpha beta : ext)
    (maximizing : bool) : result (option nat * ext) :=
  valid_locations <- get_valid_locations b ;;
  is_terminal <- is_terminal_node b ;;
  match depth with
  | O => leaf_score b is_terminal
  | S depth' =>
      if is_terminal then leaf_score b is_terminal
      else if maximizing then
        column <- first_choice valid_locations ;;
        r <- max_scan (fun b' a be => search depth' b' a be false)
               b valid_locations NegInf column alpha beta ;;
        Ok (Some (fst r), snd r)
      else
        column <- first_choice valid_locations ;;
        r <- min_scan (fun b' a be => search depth' b' a be true)
               b valid_locations PosInf column alpha beta ;;
        Ok (Some (fst r), snd r)
  end.

(** ** Plain minimax, without pruning

    Every valid column is searched; the score of a node is the largest
    (maximizing side) or smallest (minimizing side) score of its children. *)

Fixpoint plain_minimax (depth : nat) (b : board) (maximizing : bool)
  : result ext :=
  valid_locations <- get_valid_locations b ;;
  is_terminal <- is_terminal_node b ;;
  match depth with
  | O => r <- leaf_score b is_terminal ;; Ok (snd r)
  | S depth' =>
      if is_terminal then r <- leaf_score b is_terminal ;; Ok (snd r)
      else if maximizing then
        for_fold valid_locations NegInf (fun value col =>
          child <- drop_piece b col AI_PIECE ;;
          s <- plain_minimax depth' child false ;;
          Ok (ext_max value s))
      else
        for_fold valid_locations PosInf (fun value col =>
          child <- drop_piece b col PLAYER_PIECE ;;
          s <- plain_minimax depth' child true ;;
          Ok (ext_min value s))
  end.

(** ** The move as the specification words it

    [applyMove] of the specification (sections 4.1 and 7): a new board with
    one piece added at [nextOpenRow(board, col)], or the InvalidMove
    condition when the column is full. The code has no such function, only
    the move statements above; [spec_applyMove] is what they are compared
    with, and [spec_search] is [search] with every move made through
    [spec_applyMove]. *)

Inductive outcome (A : Type) : Type :=
| Done (a : A)
| InvalidMove
| Failed (e : exn).
Arguments Done {A} a.
Arguments InvalidMove {A}.
Arguments Failed {A} e.

Definition of_result {A} (m : result A) : outcome A :=
  match m with
  | Ok a => Done a
  | Raise e => Failed e
  end.

Definition obind {A B} (m : outcome A) (k : A -> outcome B) : outcome B :=
  match m with
  | Done a => k a
  | InvalidMove => InvalidMove
  | Failed e => Failed e
  end.

Notation "x <<- m ;; k" := (obind m (fun x => k))
  (at level 100, m at next level, right associativity).

Definition spec_applyMove (b : board) (col : nat) (side : Z) : outcome board :=
  row <<- of_result (get_next_open_row b col) ;;
  match row with
  | None => InvalidMove
  | Some r => of_result (setitem b (Some r) col side)
  end.

Section SpecScans.
Variable rec : board -> ext -> ext -> outcome (option nat * ext).

Fixpoint spec_max_scan (b : board) (cols : list nat) (value : ext)
    (column : nat) (alpha beta : ext) : outcome (nat * ext) :=
  match cols with
  | [] => Done (column, value)
  | col :: rest =>
      temp_board <<- spec_applyMove b col AI_PIECE ;;
      r <<- rec temp_board alpha beta ;;
      let new_score := snd r in
      let '(value, column) :=
        if ext_ltb value new_score then (new_score, col)
        else (value, column) in
      let alpha := ext_max alpha value in
      if ext_geb alpha beta then Done (column, value)
      else spec_max_scan b rest value column alpha beta
  end.

Fixpoint spec_min_scan (b : board) (cols : list nat) (value : ext)
    (column : nat) (alpha beta : ext) : outcome (nat * ext) :=
  match cols with
  | [] => Done (column, value)
  | col :: rest =>
      temp_board <<- spec_applyMove b col PLAYER_PIECE ;;
      r <<- rec temp_board alpha beta ;;
      let new_score := snd r in
      let '(value, column) :=
        if ext_ltb new_score value then (new_score, col)
        else (value, column) in
      let beta := ext_min beta value in
      if ext_geb alpha beta then Done (column, value)
      else spec_min_scan b rest value column alpha beta
  end.
End SpecScans.

Fixpoint spec_search (depth : nat) (b : board) (alpha beta : ext)
    (maximizing : bool) : outcome (option nat * ext) :=
  valid_locations <<- of_result (get_valid_locations b) ;;
  is_terminal <<- of_result (is_terminal_node b) ;;
  match depth with
  | O => of_result (leaf_score b is_terminal)
  | S depth' =>
      if is_terminal then of_result (leaf_score b is_terminal)
      else if maximizing then
        column <<- of_result (first_choice valid_locations) ;;
        r <<- spec_max_scan (fun b' a be => spec_search depth' b' a be false)
               b valid_locations NegInf column alpha beta ;;
        Done (Some (fst r), snd r)
      else
        column <<- of_result (first_choice valid_locations) ;;
        r <<- spec_min_scan (fun b' a be => spec_search depth' b' a be true)
               b valid_locations PosInf column alpha beta ;;
        Done (Some (fst r), snd r)
  end.

Definition empty_board : board :=
  replicate ROW_COUNT (replicate COLUMN_COUNT EMPTY).

Definition init_state (b : board) : state := mkState [b] (fun _ => 0%nat).

(** ** Auxiliary notions used in the statements *)

Definition opponent (piece : Z) : Z :=
  if piece =? PLAYER_PIECE then AI_PIECE else PLAYER_PIECE.

Definition window_cell (piece x : Z) : Prop :=
  x = EMPTY \/ x = piece \/ x = opponent piece.

(** The column accepts a piece: [is_valid_location] returns [True]. *)
Definition is_open (b : board) (col : nat) : bool :=
  match is_valid_location b col with
  | Ok true => true
  | _ => false
  end.

(** Every object of the store before a call is still there, unchanged,
    after it. *)
Definition preserved (st st' : state) : Prop :=
  forall (l : loc) (b : board), heap st !! l = Some b -> heap st' !! l = Some b.

(** [mh], run on the store, does what [mv] does on values: the same
    result or the same exception, and the store it leaves keeps every
    object it found. *)
Definition refines {A} (mh : M A) (mv : result A) (st : state) : Prop :=
  match mv with
  | Ok r => exists st', mh st = Ok (r, st') /\ preserved st st'
  | Raise e => mh st = Raise e
  end.

(** Every score a recursive call returns is an integer. *)
Definition fin_rec (rec : board -> ext -> ext -> result (option nat * ext))
  : Prop :=
  forall b a be r, rec b a be = Ok r -> exists z, snd r = Fin z.

(** What a score [r] returned for the window ([alpha], [beta]) says about
    the plain minimax score [v]: at or below [alpha] it is an upper bound's
    witness, at or above [beta] a lower bound's, strictly inside the window
    it is [v] itself. *)
Definition within (alpha beta r v : ext) : Prop :=
  (ext_ltb alpha r = false -> ext_ltb alpha v = false) /\
  (ext_ltb alpha r = true -> ext_ltb r beta = true -> v = r) /\
  (ext_ltb r beta = false -> ext_ltb v beta = false).

(** What a call returns to its caller: the final store is dropped. *)
Definition run {A} (m : M A) (st : state) : result A :=
  match m st with
  | Ok (a, _) => Ok a
  | Raise e => Raise e
  end.

(** ** Boards used as examples (row 0 is the bottom row) *)

(** A full board on which the AI has four in the bottom row and the player
    has no four-in-a-row; 21 pieces each. *)
Definition full_board_ai_four : board :=
  [ [2; 2; 2; 2; 1; 1; 1];
    [1; 2; 1; 2; 1; 2; 1];
    [1; 2; 1; 2; 1; 2; 1];
    [2; 1; 2; 1; 2; 1; 2];
    [2; 1; 2; 1; 2; 1; 2];
    [1; 2; 1; 2; 1; 2; 1] ].

(** A full board with no four-in-a-row for either side. *)
Definition full_board_draw : board :=
  [ [2; 1; 2; 1; 2; 1; 2];
    [1; 2; 1; 2; 1; 2; 1];
    [1; 2; 1; 2; 1; 2; 1];
    [2; 1; 2; 1; 2; 1; 2];
    [2; 1; 2; 1; 2; 1; 2];
    [1; 2; 1; 2; 1; 2; 1] ].

(** Column 0 is full, every other column is empty. *)
Definition column0_full : board :=
  [ [1; 0; 0; 0; 0; 0; 0];
    [2; 0; 0; 0; 0; 0; 0];
    [1; 0; 0; 0; 0; 0; 0];
    [2; 0; 0; 0; 0; 0; 0];
    [1; 0; 0; 0; 0; 0; 0];
    [2; 0; 0; 0; 0; 0; 0] ].

(** A position of the middle game, the AI to move: five pieces of the
    player, four of the AI, three pieces in column 3. *)
Definition midgame_board : board :=
  [ [0; 1; 2; 1; 2; 1; 0];
    [0; 0; 1; 2; 2; 0; 0];
    [0; 0; 0; 1; 0; 0; 0];
    [0; 0; 0; 0; 0; 0; 0];
    [0; 0; 0; 0; 0; 0; 0];
    [0; 0; 0; 0; 0; 0; 0] ].

(** The end of a game: the top cells of columns 1 and 3 are the only
    empty ones, the AI to move, no four-in-a-row so far. *)
Definition two_empty_board : board :=
  [ [2; 1; 2; 1; 2; 1; 2];
    [1; 2; 1; 2; 1; 2; 1];
    [1; 2; 1; 2; 1; 2; 1];
    [2; 1; 2; 1; 2; 1; 2];
    [2; 1; 2; 1; 2; 1; 2];
    [1; 0; 1; 0; 1; 2; 1] ].


(** ** Notions used to state further properties of the board helpers *)

(** The cell at ([r], [c]), read as Empty outside the board. *)
Definition cell (b : board) (r c : nat) : Z :=
  match get b r c with
  | Ok v => v
  | Raise _ => EMPTY
  end.

(** Gravity: no piece sits directly above an empty cell. *)
Definition gravity (b : board) : bool :=
  forallb (fun c =>
    forallb (fun r => negb (cell b r c =? EMPTY) || (cell b (S r) c =? EMPTY))
      (range (ROW_COUNT - 1)))
    (range COLUMN_COUNT).

(** The number of empty cells of a board. *)
Fixpoint empties (b : board) : Z :=
  match b with
  | [] => 0
  | row :: rest => count row EMPTY + empties rest
  end.

(** The plain minimax score of the position reached by dropping [piece]
    into [col]. *)
Definition child_score (depth : nat) (b : board) (col : nat) (piece : Z)
    (maximizing : bool) : result ext :=
  child <- drop_piece b col piece ;;
  plain_minimax depth child maximizing.

(** ** The shell: the game logic of [connect_four_app.py]

    The Streamlit session state is a record; the board it holds is an
    object of the store, which the shell updates in place. Calls that only
    draw the page are left out: they do not touch the session state. *)

Definition SEARCH_DEPTH : nat := 4.

Record session : Type := mkSession {
  s_board : loc;       (* st.session_state.board *)
  s_game_over : bool;  (* st.session_state.game_over *)
  s_turn : Z;          (* st.session_state.turn *)
  s_winner : Z         (* st.session_state.winner *)
}.

Definition set_turn (ss : session) (turn : Z) : session :=
  mkSession (s_board ss) (s_game_over ss) turn (s_winner ss).

Definition set_over (ss : session) (winner : Z) : session :=
  mkSession (s_board ss) true (s_turn ss) winner.

(** [row = get_next_open_row(board, col)] then [board[row][col] = piece],
    on the session's own board object. *)
Definition place_piece (board : loc) (col : nat) (piece : Z) : M unit :=
  b <~ load board ;;
  row <~ lift (get_next_open_row b col) ;;
  store board row col piece.

(** The [on_click] callback of the button of column [col]. *)
Definition player_move_callback (col : nat) (ss : session) : M session :=
  if s_turn ss =? PLAYER_PIECE then
    b <~ load (s_board ss) ;;
    ok <~ lift (is_valid_location b col) ;;
    if ok then
      _ <~ place_piece (s_board ss) col PLAYER_PIECE ;;
      ret (set_turn ss AI_PIECE)
    else ret ss
  else ret ss.

Definition check_game_state (board : loc) (ss : session) : M session :=
  b <~ load board ;;
  p <~ lift (is_winning_move b PLAYER_PIECE) ;;
  if p then ret (set_over ss PLAYER_PIECE) else
  a <~ lift (is_winning_move b AI_PIECE) ;;
  if a then ret (set_over ss AI_PIECE) else
  vs <~ lift (get_valid_locations b) ;;
  if Nat.eqb (length vs) 0 then ret (set_over ss EMPTY) else ret ss.

(** The result tells whether [st.rerun()] was called. *)
Definition ai_turn_logic (ss : session) : M (session * bool) :=
  r <~ minimax SEARCH_DEPTH (s_board ss) NegInf PosInf true ;;
  match fst r with
  | Some col =>
      b <~ load (s_board ss) ;;
      ok <~ lift (is_valid_location b col) ;;
      if ok then
        _ <~ place_piece (s_board ss) col AI_PIECE ;;
        ret (set_turn ss PLAYER_PIECE, true)
      else
        ss' <~ check_game_state (s_board ss) ss ;;
        ret (ss', false)
  | None =>
      ss' <~ check_game_state (s_board ss) ss ;;
      ret (ss', false)
  end.

Definition new_session : session := mkSession 0%nat false PLAYER_PIECE EMPTY.

(** The game flow of [main] once the page is drawn:
    [check_game_state(board)], then the AI's turn if it is due and the game
    is not over. *)
Definition main_game_flow (ss : session) : M (session * bool) :=
  ss1 <~ check_game_state (s_board ss) ss ;;
  if (s_turn ss1 =? AI_PIECE) && negb (s_game_over ss1)
  then ai_turn_logic ss1
  else ret (ss1, false).

(** * Properties *)

(** ** The heuristic table *)

(** C3. On a window of four cells, each Empty, [piece] or its opponent,
    [evaluate_window] returns the value of the one table row that applies
    (100000 for four of [piece]; 50 for three and one Empty; 5 for two and
    two Empty; -4000 for three of the opponent and one Empty) and 0 when
    none applies; the result is always one of the five table values, never
    a sum of two of them. *)
Theorem evaluate_window_table (piece a b c d : Z) :
  piece = PLAYER_PIECE \/ piece = AI_PIECE ->
  Forall (window_cell piece) [a; b; c; d] ->
  let w := [a; b; c; d] in
  let four := count w piece = 4 in
  let three := count w piece = 3 /\ count w EMPTY = 1 in
  let two := count w piece = 2 /\ count w EMPTY = 2 in
  let threat := count w (opponent piece) = 3 /\ count w EMPTY = 1 in
  (four -> evaluate_window w piece = 100000) /\
  (three -> evaluate_window w piece = 50) /\
  (two -> evaluate_window w piece = 5) /\
  (threat -> evaluate_window w piece = -4000) /\
  (~ four -> ~ three -> ~ two -> ~ threat -> evaluate_window w piece = 0) /\
  In (evaluate_window w piece) [100000; 50; 5; -4000; 0].
Proof.
  intros Hp Hw.
  apply Forall_cons in Hw as [Ha Hw].
  apply Forall_cons in Hw as [Hb Hw].
  apply Forall_cons in Hw as [Hc Hw].
  apply Forall_cons in Hw as [Hd _].
  unfold window_cell in *.
  destruct Hp as [-> | ->];
    destruct Ha as [-> | [-> | ->]];
    destruct Hb as [-> | [-> | ->]];
    destruct Hc as [-> | [-> | ->]];
    destruct Hd as [-> | [-> | ->]];
    vm_compute;
    repeat split; try discriminate; try tauto;
    intros; exfalso; intuition discriminate.
Qed.

Lemma evaluate_window_table_witness :
  evaluate_window [AI_PIECE; AI_PIECE; EMPTY; AI_PIECE] AI_PIECE = 50.
Proof.
  assert (Hp : AI_PIECE = PLAYER_PIECE \/ AI_PIECE = AI_PIECE) by (right; reflexivity).
  assert (Hw : Forall (window_cell AI_PIECE) [AI_PIECE; AI_PIECE; EMPTY; AI_PIECE]).
  { repeat apply Forall_cons_2; try apply Forall_nil_2;
    unfold window_cell; auto. }
  destruct (evaluate_window_table AI_PIECE AI_PIECE AI_PIECE EMPTY AI_PIECE Hp Hw)
    as (_ & H3 & _).
  apply H3. split; reflexivity.
Defined.

(** ** The error monad and the loops *)

Lemma bind_ok_inv {A B} (m : result A) (k : A -> result B) (r : B) :
  bind m k = Ok r -> exists a, m = Ok a /\ k a = Ok r.
Proof. destruct m as [a | e]; simpl; [eauto | discriminate]. Qed.

Lemma all_of_ok {A} (xs : list A) (f : A -> result bool) :
  (forall x, x ∈ xs -> exists r, f x = Ok r) ->
  exists r, all_of xs f = Ok r.
Proof.
  induction xs as [| x xs IH]; intros Hf; simpl; [eauto |].
  destruct (Hf x) as [r Hr]; [left |].
  rewrite Hr; simpl. destruct r; [| eauto].
  apply IH. intros y Hy. apply Hf. now right.
Qed.

Lemma any_of_ok {A} (xs : list A) (f : A -> result bool) :
  (forall x, x ∈ xs -> exists r, f x = Ok r) ->
  exists r, any_of xs f = Ok r.
Proof.
  induction xs as [| x xs IH]; intros Hf; simpl; [eauto |].
  destruct (Hf x) as [r Hr]; [left |].
  rewrite Hr; simpl. destruct r; [eauto |].
  apply IH. intros y Hy. apply Hf. now right.
Qed.

Lemma for_fold_ok {A S} (xs : list A) (s : S) (body : S -> A -> result S) :
  (forall s x, x ∈ xs -> exists s', body s x = Ok s') ->
  exists s', for_fold xs s body = Ok s'.
Proof.
  revert s. induction xs as [| x xs IH]; intros s Hf; simpl; [eauto |].
  destruct (Hf s x) as [s' Hs']; [left |].
  rewrite Hs'; simpl. apply IH. intros s0 y Hy. apply Hf. now right.
Qed.

Lemma elem_of_range (n k : nat) : k ∈ range n <-> (k < n)%nat.
Proof. unfold range. rewrite elem_of_seq. lia. Qed.

Lemma elem_of_range_from (a b k : nat) :
  k ∈ range_from a b <-> (a <= k < b)%nat.
Proof. unfold range_from. rewrite elem_of_seq. lia. Qed.

(** ** Reads on a well-shaped board never raise *)

Lemma wf_get (b : board) (r c : nat) :
  wf_board b -> (r < ROW_COUNT)%nat -> (c < COLUMN_COUNT)%nat ->
  exists v, get b r c = Ok v.
Proof.
  intros [Hlen Hrows] Hr Hc. unfold get.
  destruct (b !! r) as [row |] eqn:Hrow.
  - assert (Hl : length row = COLUMN_COUNT).
    { eapply Forall_lookup_1 in Hrows; eauto. }
    destruct (row !! c) as [v |] eqn:Hv; [eauto |].
    apply lookup_ge_None in Hv. lia.
  - apply lookup_ge_None in Hrow. lia.
Qed.

Lemma get_ok_bounds (b : board) (r c : nat) (v : Z) :
  wf_board b -> get b r c = Ok v ->
  (r < ROW_COUNT)%nat /\ (c < COLUMN_COUNT)%nat.
Proof.
  intros [Hlen Hrows] Hg. unfold get in Hg.
  destruct (b !! r) as [row |] eqn:Hrow; [| discriminate].
  destruct (row !! c) as [v' |] eqn:Hv; [| discriminate].
  apply lookup_lt_Some in Hrow as Hr.
  apply lookup_lt_Some in Hv.
  eapply Forall_lookup_1 in Hrows; eauto. simpl in Hrows. lia.
Qed.

Lemma wf_row_array (b : board) (r : nat) :
  wf_board b -> (r < ROW_COUNT)%nat -> exists row, row_array b r = Ok row.
Proof.
  intros [Hlen _] Hr. unfold row_array.
  destruct (b !! r) eqn:Hrow; [eauto |].
  apply lookup_ge_None in Hrow. lia.
Qed.

Lemma col_array_ok (b : board) (c : nat) :
  Forall (fun row => length row = COLUMN_COUNT) b -> (c < COLUMN_COUNT)%nat ->
  exists col, col_array b c = Ok col.
Proof.
  intros Hrows Hc. induction Hrows as [| row rest Hrow _ IH]; simpl; [eauto |].
  destruct (row !! c) eqn:Hv.
  - destruct IH as [col ->]. simpl. eauto.
  - apply lookup_ge_None in Hv. lia.
Qed.

Lemma window_scan_ok (b : board) (piece : Z) (cs rs : list nat)
    (fr fc : nat -> nat -> nat -> nat) :
  wf_board b ->
  (forall c r i, c ∈ cs -> r ∈ rs -> (i < 4)%nat ->
     (fr c r i < ROW_COUNT)%nat /\ (fc c r i < COLUMN_COUNT)%nat) ->
  exists w,
    any_of cs (fun c =>
      any_of rs (fun r =>
        all_of (range 4) (fun i =>
          v <- get b (fr c r i) (fc c r i) ;; Ok (v =? piece)))) = Ok w.
Proof.
  intros Hwf Hin.
  apply any_of_ok. intros c Hc.
  apply any_of_ok. intros r Hr.
  apply all_of_ok. intros i Hi. apply elem_of_range in Hi.
  destruct (Hin c r i Hc Hr Hi) as [H1 H2].
  destruct (wf_get b _ _ Hwf H1 H2) as [v ->]. simpl. eauto.
Qed.

Lemma is_winning_move_ok (b : board) (piece : Z) :
  wf_board b -> exists w, is_winning_move b piece = Ok w.
Proof.
  intros Hwf. unfold is_winning_move.
  destruct (window_scan_ok b piece (range (COLUMN_COUNT - 3)) (range ROW_COUNT)
              (fun c r i => r) (fun c r i => (c + i)%nat) Hwf) as [h Hh].
  { intros c r i Hc Hr Hi. apply elem_of_range in Hc, Hr.
    unfold ROW_COUNT, COLUMN_COUNT in *. simpl in Hc. lia. }
  cbv beta in Hh. rewrite Hh. cbn [bind]. destruct h; [eauto |].
  destruct (window_scan_ok b piece (range COLUMN_COUNT) (range (ROW_COUNT - 3))
              (fun c r i => (r + i)%nat) (fun c r i => c) Hwf) as [v Hv].
  { intros c r i Hc Hr Hi. apply elem_of_range in Hc, Hr.
    unfold ROW_COUNT, COLUMN_COUNT in *. simpl in Hr. lia. }
  cbv beta in Hv. rewrite Hv. cbn [bind]. destruct v; [eauto |].
  destruct (window_scan_ok b piece (range (COLUMN_COUNT - 3)) (range (ROW_COUNT - 3))
              (fun c r i => (r + i)%nat) (fun c r i => (c + i)%nat) Hwf) as [p Hp].
  { intros c r i Hc Hr Hi. apply elem_of_range in Hc, Hr.
    unfold ROW_COUNT, COLUMN_COUNT in *. simpl in Hc, Hr. lia. }
  cbv beta in Hp. rewrite Hp. cbn [bind]. destruct p; [eauto |].
  destruct (window_scan_ok b piece (range (COLUMN_COUNT - 3)) (range_from 3 ROW_COUNT)
              (fun c r i => (r - i)%nat) (fun c r i => (c + i)%nat) Hwf) as [n Hn].
  { intros c r i Hc Hr Hi. apply elem_of_range in Hc.
    apply elem_of_range_from in Hr.
    unfold ROW_COUNT, COLUMN_COUNT in *. simpl in Hc. lia. }
  cbv beta in Hn. rewrite Hn. cbn [bind]. destruct n; eauto.
Qed.

Lemma is_valid_location_ok (b : board) (col : nat) :
  wf_board b -> (col < COLUMN_COUNT)%nat ->
  exists r, is_valid_location b col = Ok r.
Proof.
  intros Hwf Hc. unfold is_valid_location.
  destruct (wf_get b (ROW_COUNT - 1) col Hwf) as [v ->];
    [unfold ROW_COUNT; lia | assumption |].
  simpl. eauto.
Qed.

Lemma valid_scan (b : board) (cols acc : list nat) :
  wf_board b -> (forall c, c ∈ cols -> (c < COLUMN_COUNT)%nat) ->
  for_fold cols acc
    (fun valid_locations col =>
       ok <- is_valid_location b col ;;
       Ok (if ok then valid_locations ++ [col] else valid_locations))
  = Ok (acc ++ List.filter (is_open b) cols).
Proof.
  intros Hwf. revert acc.
  induction cols as [| c cols IH]; intros acc Hin; simpl.
  - now rewrite app_nil_r.
  - destruct (is_valid_location_ok b c Hwf) as [r Hr]; [apply Hin; left |].
    unfold is_open at 1. rewrite Hr. simpl.
    rewrite IH by (intros; apply Hin; now right).
    destruct r; [| reflexivity].
    now rewrite <- app_assoc.
Qed.

Lemma get_valid_locations_eq (b : board) :
  wf_board b ->
  get_valid_locations b = Ok (List.filter (is_open b) (range COLUMN_COUNT)).
Proof.
  intros Hwf. unfold get_valid_locations.
  rewrite valid_scan; [reflexivity | assumption |].
  intros c Hc. now apply elem_of_range in Hc.
Qed.

Lemma valid_location_open (b : board) (vs : list nat) (col : nat) :
  wf_board b -> get_valid_locations b = Ok vs -> col ∈ vs ->
  is_valid_location b col = Ok true.
Proof.
  intros Hwf Hvs Hin. rewrite get_valid_locations_eq in Hvs by assumption.
  assert (Heq : vs = List.filter (is_open b) (range COLUMN_COUNT)) by congruence.
  rewrite Heq in Hin.
  apply list_elem_of_In, filter_In in Hin as [_ Hopen].
  unfold is_open in Hopen.
  destruct (is_valid_location b col) as [[|] | e]; congruence.
Qed.

Lemma is_terminal_node_ok (b : board) :
  wf_board b -> exists t, is_terminal_node b = Ok t.
Proof.
  intros Hwf. unfold is_terminal_node.
  destruct (is_winning_move_ok b PLAYER_PIECE Hwf) as [w1 ->]. simpl.
  destruct w1; [eauto |].
  destruct (is_winning_move_ok b AI_PIECE Hwf) as [w2 ->]. simpl.
  destruct w2; [eauto |].
  rewrite get_valid_locations_eq by assumption. simpl. eauto.
Qed.

(** What [is_terminal_node] answers, in terms of the three tests it makes. *)
Lemma is_terminal_node_spec (b : board) (t : bool) :
  wf_board b -> is_terminal_node b = Ok t ->
  exists wp wa vs,
    is_winning_move b PLAYER_PIECE = Ok wp /\
    is_winning_move b AI_PIECE = Ok wa /\
    get_valid_locations b = Ok vs /\
    t = wp || wa || Nat.eqb (length vs) 0.
Proof.
  intros Hwf Ht. unfold is_terminal_node in Ht.
  destruct (is_winning_move_ok b PLAYER_PIECE Hwf) as [wp Hwp].
  destruct (is_winning_move_ok b AI_PIECE Hwf) as [wa Hwa].
  rewrite Hwp, Hwa in Ht.
  rewrite get_valid_locations_eq in Ht by assumption.
  exists wp, wa, (List.filter (is_open b) (range COLUMN_COUNT)).
  rewrite get_valid_locations_eq by assumption.
  split; [assumption |]. split; [assumption |]. split; [reflexivity |].
  destruct wp, wa; cbn [bind orb] in *; congruence.
Qed.

Lemma score_position_ok (b : board) (piece : Z) :
  wf_board b -> exists s, score_position b piece = Ok s.
Proof.
  intros Hwf. pose proof Hwf as [Hlen Hrows]. unfold score_position.
  destruct (col_array_ok b (COLUMN_COUNT / 2) Hrows) as [center ->].
  { unfold COLUMN_COUNT. simpl. lia. }
  cbn [bind].
  match goal with |- context [for_fold (range ROW_COUNT) ?s ?f] =>
    destruct (for_fold_ok (range ROW_COUNT) s f) as [s1 ->] end.
  { intros s r Hr. apply elem_of_range in Hr.
    destruct (wf_row_array b r Hwf Hr) as [row ->]. cbn [bind].
    apply for_fold_ok. eauto. }
  cbn [bind].
  match goal with |- context [for_fold (range COLUMN_COUNT) ?s ?f] =>
    destruct (for_fold_ok (range COLUMN_COUNT) s f) as [s2 ->] end.
  { intros s c Hc. apply elem_of_range in Hc.
    destruct (col_array_ok b c Hrows Hc) as [col ->]. cbn [bind].
    apply for_fold_ok. eauto. }
  cbn [bind].
  match goal with |- context [for_fold (range (ROW_COUNT - 3)) ?s ?f] =>
    destruct (for_fold_ok (range (ROW_COUNT - 3)) s f) as [s3 ->] end.
  { intros s r Hr. apply elem_of_range in Hr.
    apply for_fold_ok. intros s' c Hc. apply elem_of_range in Hc.
    unfold ROW_COUNT, COLUMN_COUNT in Hr, Hc. simpl in Hr, Hc.
    match goal with |- context [for_fold (range WINDOW_LENGTH) [] ?f] =>
      destruct (for_fold_ok (range WINDOW_LENGTH) [] f) as [wpos ->] end.
    { intros w i Hi. apply elem_of_range in Hi. unfold WINDOW_LENGTH in Hi.
      destruct (wf_get b (r + i) (c + i) Hwf) as [v ->];
        [unfold ROW_COUNT; lia | unfold COLUMN_COUNT; lia |].
      cbn [bind]. eauto. }
    cbn [bind].
    match goal with |- context [for_fold (range WINDOW_LENGTH) [] ?f] =>
      destruct (for_fold_ok (range WINDOW_LENGTH) [] f) as [wneg ->] end.
    { intros w i Hi. apply elem_of_range in Hi. unfold WINDOW_LENGTH in Hi.
      destruct (wf_get b (r + 3 - i) (c + i) Hwf) as [v ->];
        [unfold ROW_COUNT; lia | unfold COLUMN_COUNT; lia |].
      cbn [bind]. eauto. }
    cbn [bind]. eauto. }
  cbn [bind]. eauto.
Qed.

Lemma leaf_score_ok (b : board) (t : bool) :
  wf_board b -> exists z, leaf_score b t = Ok (None, Fin z).
Proof.
  intros Hwf. unfold leaf_score. destruct t.
  - destruct (is_winning_move_ok b AI_PIECE Hwf) as [ai ->]. simpl.
    destruct ai; [eauto |].
    destruct (is_winning_move_ok b PLAYER_PIECE Hwf) as [pl ->]. simpl.
    destruct pl; eauto.
  - destruct (score_position_ok b AI_PIECE Hwf) as [s ->]. simpl. eauto.
Qed.

(** A leaf, whenever it returns, returns no column and a finite score. *)
Lemma leaf_score_fin (b : board) (t : bool) (r : option nat * ext) :
  leaf_score b t = Ok r -> exists z, r = (None, Fin z).
Proof.
  unfold leaf_score. destruct t.
  - destruct (is_winning_move b AI_PIECE) as [[|] | e]; simpl;
      [intros [= <-]; eauto | | discriminate].
    destruct (is_winning_move b PLAYER_PIECE) as [[|] | e]; simpl;
      [intros [= <-]; eauto | intros [= <-]; eauto | discriminate].
  - destruct (score_position b AI_PIECE); simpl;
      [intros [= <-]; eauto | discriminate].
Qed.

(** ** Recording a move *)

Lemma first_open_row_found (b : board) (col : nat) (rows : list nat) :
  (forall r, r ∈ rows -> exists v, get b r col = Ok v) ->
  (exists r, r ∈ rows /\ get b r col = Ok EMPTY) ->
  exists r, first_open_row b col rows = Ok (Some r) /\
            r ∈ rows /\ get b r col = Ok EMPTY.
Proof.
  induction rows as [| r0 rows IH]; intros Hok (r & Hr & Hempty).
  - inversion Hr.
  - simpl. destruct (Hok r0) as [v Hv]; [left |]. rewrite Hv. cbn [bind].
    destruct (Z.eqb_spec v EMPTY) as [-> | Hne].
    + exists r0. split; [reflexivity |]. split; [left | assumption].
    + assert (Hr' : r ∈ rows).
      { apply elem_of_cons in Hr as [-> | Hr]; [congruence | assumption]. }
      destruct IH as (r1 & H1 & H2 & H3).
      * intros r' Hr'0. apply Hok. now right.
      * eauto.
      * exists r1. split; [assumption |]. split; [now right | assumption].
Qed.

(** On a column that [is_valid_location] accepts, [get_next_open_row]
    finds a row: its fall-through [None] is not reached. *)
Lemma get_next_open_row_valid (b : board) (col : nat) :
  wf_board b -> is_valid_location b col = Ok true ->
  exists r, get_next_open_row b col = Ok (Some r) /\
            (r < ROW_COUNT)%nat /\ (col < COLUMN_COUNT)%nat /\
            get b r col = Ok EMPTY.
Proof.
  intros Hwf Hvalid. unfold is_valid_location in Hvalid.
  apply bind_ok_inv in Hvalid as (v & Hv & Heq).
  injection Heq as Heq. apply Z.eqb_eq in Heq. subst v.
  destruct (get_ok_bounds _ _ _ _ Hwf Hv) as [_ Hc].
  destruct (first_open_row_found b col (range ROW_COUNT)) as (r & H1 & H2 & H3).
  - intros r Hr. apply elem_of_range in Hr. now apply wf_get.
  - exists (ROW_COUNT - 1)%nat. split; [| assumption].
    apply elem_of_range. unfold ROW_COUNT. lia.
  - exists r. apply elem_of_range in H2. auto.
Qed.

Lemma setitem_cell (b : board) (r c : nat) (v : Z) :
  wf_board b -> (r < ROW_COUNT)%nat -> (c < COLUMN_COUNT)%nat ->
  exists b', setitem b (Some r) c v = Ok b' /\ wf_board b' /\
             get b' r c = Ok v /\
             forall r' c', (r', c') <> (r, c) -> get b' r' c' = get b r' c'.
Proof.
  intros [Hlen Hrows] Hr Hc. unfold setitem.
  destruct (b !! r) as [cells |] eqn:Hcells.
  2: { apply lookup_ge_None in Hcells. lia. }
  assert (Hl : length cells = COLUMN_COUNT).
  { eapply Forall_lookup_1 in Hrows; eauto. }
  assert (Hlt : (c <? length cells)%nat = true) by (apply Nat.ltb_lt; lia).
  rewrite Hlt. eexists. split; [reflexivity |].
  split; [| split].
  - split.
    + now rewrite length_insert.
    + apply Forall_insert; [assumption |]. now rewrite length_insert.
  - unfold get. rewrite list_lookup_insert_eq by lia.
    rewrite list_lookup_insert_eq by lia. reflexivity.
  - intros r' c' Hne. unfold get.
    destruct (decide (r' = r)) as [-> | Hr'].
    + rewrite list_lookup_insert_eq by lia. rewrite Hcells.
      assert (c' <> c) by congruence.
      now rewrite list_lookup_insert_ne by auto.
    + now rewrite list_lookup_insert_ne by auto.
Qed.

(** A move into an open column of a well-shaped board: the piece lands on
    the row of [get_next_open_row], every other cell is as before. *)
Lemma drop_piece_ok (b : board) (col : nat) (piece : Z) :
  wf_board b -> is_valid_location b col = Ok true ->
  exists r b',
    get_next_open_row b col = Ok (Some r) /\
    drop_piece b col piece = Ok b' /\ wf_board b' /\
    get b r col = Ok EMPTY /\ get b' r col = Ok piece /\
    forall r' c', (r', c') <> (r, col) -> get b' r' c' = get b r' c'.
Proof.
  intros Hwf Hvalid.
  destruct (get_next_open_row_valid b col Hwf Hvalid) as (r & Hrow & Hr & Hc & He).
  destruct (setitem_cell b r col piece Hwf Hr Hc) as (b' & Hset & Hwf' & Hg & Hframe).
  exists r, b'. unfold drop_piece. rewrite Hrow. cbn [bind]. auto 10.
Qed.

(** The move on the store: a new object holding the board with the piece
    added; nothing that was there is touched. *)
Lemma apply_move_refines (l : loc) (b : board) (col : nat) (piece : Z)
    (st : state) :
  heap st !! l = Some b ->
  match drop_piece b col piece with
  | Ok b' =>
      apply_move l col piece st
      = Ok (length (heap st), mkState (heap st ++ [b']) (rng st))
  | Raise e => apply_move l col piece st = Raise e
  end.
Proof.
  intros Hl. unfold apply_move, drop_piece, mbind, load, lift, copy, store, ret.
  rewrite Hl.
  destruct (get_next_open_row b col) as [row | e]; cbn [bind]; [| reflexivity].
  rewrite Hl. cbn [heap rng].
  rewrite list_lookup_middle by reflexivity.
  destruct (setitem b row col piece) as [b' | e]; [| reflexivity].
  rewrite insert_app_r_alt by lia. rewrite Nat.sub_diag. reflexivity.
Qed.

Lemma preserved_refl (st : state) : preserved st st.
Proof. intros l b H. exact H. Qed.

Lemma preserved_trans (st1 st2 st3 : state) :
  preserved st1 st2 -> preserved st2 st3 -> preserved st1 st3.
Proof. intros H12 H23 l b H. apply H23, H12, H. Qed.

Lemma preserved_alloc (st : state) (b : board) (g : nat -> nat) :
  preserved st (mkState (heap st ++ [b]) g).
Proof. intros l b0 H. cbn [heap]. now apply lookup_app_l_Some. Qed.

Lemma preserved_rng (st : state) (g : nat -> nat) :
  preserved st (mkState (heap st) g).
Proof. intros l b0 H. exact H. Qed.

(** ** Scores are integers, and the seed of the best column is overwritten *)

Lemma max_scan_fin rec (b : board) (cols : list nat) (value : ext)
    (column : nat) (alpha beta : ext) (r : nat * ext) :
  fin_rec rec ->
  max_scan rec b cols value column alpha beta = Ok r ->
  (r = (column, value) /\ (cols = [] \/ value <> NegInf)) \/
  (fst r ∈ cols /\ exists z, snd r = Fin z).
Proof.
  intros Hrec. revert value column alpha.
  induction cols as [| col rest IH]; intros value column alpha Hscan;
    simpl in Hscan.
  - injection Hscan as <-. auto.
  - apply bind_ok_inv in Hscan as (b' & _ & Hscan).
    apply bind_ok_inv in Hscan as (rr & Hrr & Hscan).
    destruct (Hrec _ _ _ _ Hrr) as [z Hz]. rewrite Hz in Hscan.
    destruct (ext_ltb value (Fin z)) eqn:Hlt.
    + assert (Hnew : (col ∈ col :: rest) /\ exists z', Fin z = Fin z')
        by (split; [left | eauto]).
      destruct (ext_geb _ beta).
      * injection Hscan as <-. right. exact Hnew.
      * apply IH in Hscan as [[-> _] | [Hin Hfin]]; right;
          [exact Hnew | split; [now right | exact Hfin]].
    + assert (Hv : value <> NegInf) by (intros ->; discriminate).
      destruct (ext_geb _ beta).
      * injection Hscan as <-. auto.
      * apply IH in Hscan as [[-> _] | [Hin Hfin]];
          [auto | right; split; [now right | exact Hfin]].
Qed.

Lemma min_scan_fin rec (b : board) (cols : list nat) (value : ext)
    (column : nat) (alpha beta : ext) (r : nat * ext) :
  fin_rec rec ->
  min_scan rec b cols value column alpha beta = Ok r ->
  (r = (column, value) /\ (cols = [] \/ value <> PosInf)) \/
  (fst r ∈ cols /\ exists z, snd r = Fin z).
Proof.
  intros Hrec. revert value column beta.
  induction cols as [| col rest IH]; intros value column beta Hscan;
    simpl in Hscan.
  - injection Hscan as <-. auto.
  - apply bind_ok_inv in Hscan as (b' & _ & Hscan).
    apply bind_ok_inv in Hscan as (rr & Hrr & Hscan).
    destruct (Hrec _ _ _ _ Hrr) as [z Hz]. rewrite Hz in Hscan.
    destruct (ext_ltb (Fin z) value) eqn:Hlt.
    + assert (Hnew : (col ∈ col :: rest) /\ exists z', Fin z = Fin z')
        by (split; [left | eauto]).
      destruct (ext_geb alpha _).
      * injection Hscan as <-. right. exact Hnew.
      * apply IH in Hscan as [[-> _] | [Hin Hfin]]; right;
          [exact Hnew | split; [now right | exact Hfin]].
    + assert (Hv : value <> PosInf) by (intros ->; discriminate).
      destruct (ext_geb alpha _).
      * injection Hscan as <-. auto.
      * apply IH in Hscan as [[-> _] | [Hin Hfin]];
          [auto | right; split; [now right | exact Hfin]].
Qed.

Lemma first_choice_ok (xs : list nat) (x : nat) :
  first_choice xs = Ok x -> x ∈ xs.
Proof. destruct xs; simpl; [discriminate | intros [= ->]; left]. Qed.

(** An inner node returns one of the columns it scanned, with an integer
    score. *)
Lemma search_node (depth : nat) (b : board) (alpha beta : ext)
    (maximizing : bool) (vs : list nat) (r : option nat * ext) :
  fin_rec (fun b' a be => search depth b' a be (negb maximizing)) ->
  get_valid_locations b = Ok vs ->
  is_terminal_node b = Ok false ->
  search (S depth) b alpha beta maximizing = Ok r ->
  exists col z, r = (Some col, Fin z) /\ col ∈ vs.
Proof.
  intros Hrec Hvs Ht Hs. simpl in Hs. rewrite Hvs, Ht in Hs. cbn [bind] in Hs.
  destruct maximizing; simpl in Hrec.
  - apply bind_ok_inv in Hs as (column & Hcol & Hs).
    apply bind_ok_inv in Hs as (r' & Hscan & Hs).
    injection Hs as <-.
    apply max_scan_fin in Hscan as [[_ [-> | Hv]] | [Hin [z Hz]]];
      [discriminate | congruence | | exact Hrec].
    destruct r' as [c v]. simpl in *. subst v. eauto.
  - apply bind_ok_inv in Hs as (column & Hcol & Hs).
    apply bind_ok_inv in Hs as (r' & Hscan & Hs).
    injection Hs as <-.
    apply min_scan_fin in Hscan as [[_ [-> | Hv]] | [Hin [z Hz]]];
      [discriminate | congruence | | exact Hrec].
    destruct r' as [c v]. simpl in *. subst v. eauto.
Qed.

Lemma search_fin (depth : nat) (maximizing : bool) :
  fin_rec (fun b a be => search depth b a be maximizing).
Proof.
  revert maximizing. induction depth as [| depth IH];
    intros maximizing b alpha beta r Hs.
  - simpl in Hs.
    apply bind_ok_inv in Hs as (vs & _ & Hs).
    apply bind_ok_inv in Hs as (t & _ & Hs).
    apply leaf_score_fin in Hs as [z ->]. eauto.
  - pose proof Hs as Hs'. simpl in Hs.
    apply bind_ok_inv in Hs as (vs & Hvs & Hs).
    apply bind_ok_inv in Hs as (t & Ht & Hs).
    destruct t.
    + apply leaf_score_fin in Hs as [z ->]. eauto.
    + destruct (search_node depth b alpha beta maximizing vs r)
        as (col & z & -> & _); auto. simpl. eauto.
Qed.

Lemma max_scan_seed rec (b : board) (cols : list nat) (c1 c2 : nat)
    (alpha beta : ext) :
  fin_rec rec -> cols <> [] ->
  max_scan rec b cols NegInf c1 alpha beta
  = max_scan rec b cols NegInf c2 alpha beta.
Proof.
  intros Hrec Hne. destruct cols as [| col rest]; [congruence |]. simpl.
  destruct (drop_piece b col AI_PIECE) as [b' | e]; [| reflexivity].
  cbn [bind].
  destruct (rec b' alpha beta) as [rr | e] eqn:Hrr; [| reflexivity].
  cbn [bind]. destruct (Hrec _ _ _ _ Hrr) as [z ->]. reflexivity.
Qed.

Lemma min_scan_seed rec (b : board) (cols : list nat) (c1 c2 : nat)
    (alpha beta : ext) :
  fin_rec rec -> cols <> [] ->
  min_scan rec b cols PosInf c1 alpha beta
  = min_scan rec b cols PosInf c2 alpha beta.
Proof.
  intros Hrec Hne. destruct cols as [| col rest]; [congruence |]. simpl.
  destruct (drop_piece b col PLAYER_PIECE) as [b' | e]; [| reflexivity].
  cbn [bind].
  destruct (rec b' alpha beta) as [rr | e] eqn:Hrr; [| reflexivity].
  cbn [bind]. destruct (Hrec _ _ _ _ Hrr) as [z ->]. reflexivity.
Qed.

(** ** [minimax] on the store computes [search] on the board it is given *)

Lemma refines_lift {A} (m : result A) (st : state) : refines (lift m) m st.
Proof.
  unfold refines, lift. destruct m; [| reflexivity].
  eexists. split; [reflexivity | apply preserved_refl].
Qed.

Section LoopRefinement.
Variable rec_h : loc -> ext -> ext -> M (option nat * ext).
Variable rec_v : board -> ext -> ext -> result (option nat * ext).
Hypothesis rec_refines :
  forall l b a be st,
    heap st !! l = Some b -> refines (rec_h l a be) (rec_v b a be) st.

Lemma max_loop_step (l l' : loc) col rest value column alpha beta
    (st st1 st2 : state) rr :
  apply_move l col AI_PIECE st = Ok (l', st1) ->
  rec_h l' alpha beta st1 = Ok (rr, st2) ->
  max_loop rec_h l (col :: rest) value column alpha beta st
  = (let '(value, column) :=
       if ext_ltb value (snd rr) then (snd rr, col) else (value, column) in
     let alpha := ext_max alpha value in
     if ext_geb alpha beta then ret (column, value)
     else max_loop rec_h l rest value column alpha beta) st2.
Proof.
  intros Hmove Hrec. cbn [max_loop]. unfold mbind at 1. rewrite Hmove.
  unfold mbind at 1. rewrite Hrec. reflexivity.
Qed.

Lemma min_loop_step (l l' : loc) col rest value column alpha beta
    (st st1 st2 : state) rr :
  apply_move l col PLAYER_PIECE st = Ok (l', st1) ->
  rec_h l' alpha beta st1 = Ok (rr, st2) ->
  min_loop rec_h l (col :: rest) value column alpha beta st
  = (let '(value, column) :=
       if ext_ltb (snd rr) value then (snd rr, col) else (value, column) in
     let beta := ext_min beta value in
     if ext_geb alpha beta then ret (column, value)
     else min_loop rec_h l rest value column alpha beta) st2.
Proof.
  intros Hmove Hrec. cbn [min_loop]. unfold mbind at 1. rewrite Hmove.
  unfold mbind at 1. rewrite Hrec. reflexivity.
Qed.

Lemma max_loop_refines (cols : list nat) :
  forall (l : loc) (b : board) value column alpha beta st,
    heap st !! l = Some b ->
    refines (max_loop rec_h l cols value column alpha beta)
            (max_scan rec_v b cols value column alpha beta) st.
Proof.
  induction cols as [| col rest IH]; intros l b value column alpha beta st Hl.
  - simpl. eexists. split; [reflexivity | apply preserved_refl].
  - unfold refines. cbn [max_scan].
    pose proof (apply_move_refines l b col AI_PIECE st Hl) as Hmove.
    destruct (drop_piece b col AI_PIECE) as [b' | e]; cbn [bind].
    2: { cbn [max_loop]. unfold mbind at 1. now rewrite Hmove. }
    set (st1 := mkState (heap st ++ [b']) (rng st)) in *.
    assert (Hnew : heap st1 !! length (heap st) = Some b')
      by (apply list_lookup_middle; reflexivity).
    pose proof (rec_refines _ _ alpha beta _ Hnew) as Hrec.
    unfold refines in Hrec.
    destruct (rec_v b' alpha beta) as [rr | e]; cbn [bind].
    2: { cbn [max_loop]. unfold mbind at 1. rewrite Hmove.
         unfold mbind at 1. now rewrite Hrec. }
    destruct Hrec as (st2 & Hrec & Hpres).
    rewrite (max_loop_step _ _ _ _ _ _ _ _ _ _ _ _ Hmove Hrec).
    assert (Hpres' : preserved st st2).
    { eapply preserved_trans; [apply preserved_alloc | exact Hpres]. }
    destruct (ext_ltb value (snd rr)); cbv zeta;
      (destruct (ext_geb _ beta);
       [ eexists; split; [reflexivity | exact Hpres'] |]).
    + specialize (IH l b (snd rr) col (ext_max alpha (snd rr)) beta st2
                    (Hpres' _ _ Hl)).
      unfold refines in IH.
      destruct (max_scan rec_v b rest _ _ _ beta) as [r | e]; [| exact IH].
      destruct IH as (st3 & -> & H3). exists st3.
      split; [reflexivity | eapply preserved_trans; eauto].
    + specialize (IH l b value column (ext_max alpha value) beta st2
                    (Hpres' _ _ Hl)).
      unfold refines in IH.
      destruct (max_scan rec_v b rest _ _ _ beta) as [r | e]; [| exact IH].
      destruct IH as (st3 & -> & H3). exists st3.
      split; [reflexivity | eapply preserved_trans; eauto].
Qed.

Lemma min_loop_refines (cols : list nat) :
  forall (l : loc) (b : board) value column alpha beta st,
    heap st !! l = Some b ->
    refines (min_loop rec_h l cols value column alpha beta)
            (min_scan rec_v b cols value column alpha beta) st.
Proof.
  induction cols as [| col rest IH]; intros l b value column alpha beta st Hl.
  - simpl. eexists. split; [reflexivity | apply preserved_refl].
  - unfold refines. cbn [min_scan].
    pose proof (apply_move_refines l b col PLAYER_PIECE st Hl) as Hmove.
    destruct (drop_piece b col PLAYER_PIECE) as [b' | e]; cbn [bind].
    2: { cbn [min_loop]. unfold mbind at 1. now rewrite Hmove. }
    set (st1 := mkState (heap st ++ [b']) (rng st)) in *.
    assert (Hnew : heap st1 !! length (heap st) = Some b')
      by (apply list_lookup_middle; reflexivity).
    pose proof (rec_refines _ _ alpha beta _ Hnew) as Hrec.
    unfold refines in Hrec.
    destruct (rec_v b' alpha beta) as [rr | e]; cbn [bind].
    2: { cbn [min_loop]. unfold mbind at 1. rewrite Hmove.
         unfold mbind at 1. now rewrite Hrec. }
    destruct Hrec as (st2 & Hrec & Hpres).
    rewrite (min_loop_step _ _ _ _ _ _ _ _ _ _ _ _ Hmove Hrec).
    assert (Hpres' : preserved st st2).
    { eapply preserved_trans; [apply preserved_alloc | exact Hpres]. }
    destruct (ext_ltb (snd rr) value); cbv zeta;
      (destruct (ext_geb alpha _);
       [ eexists; split; [reflexivity | exact Hpres'] |]).
    + specialize (IH l b (snd rr) col alpha (ext_min beta (snd rr)) st2
                    (Hpres' _ _ Hl)).
      unfold refines in IH.
      destruct (min_scan rec_v b rest _ _ alpha _) as [r | e]; [| exact IH].
      destruct IH as (st3 & -> & H3). exists st3.
      split; [reflexivity | eapply preserved_trans; eauto].
    + specialize (IH l b value column alpha (ext_min beta value) st2
                    (Hpres' _ _ Hl)).
      unfold refines in IH.
      destruct (min_scan rec_v b rest _ _ alpha _) as [r | e]; [| exact IH].
      destruct IH as (st3 & -> & H3). exists st3.
      split; [reflexivity | eapply preserved_trans; eauto].
Qed.
End LoopRefinement.

Lemma minimax_unfold (depth : nat) (l : loc) (b : board) alpha beta
    maximizing st :
  heap st !! l = Some b ->
  minimax depth l alpha beta maximizing st
  = match get_valid_locations b with
    | Raise e => Raise e
    | Ok valid_locations =>
        match is_terminal_node b with
        | Raise e => Raise e
        | Ok is_terminal =>
            match depth with
            | O => lift (leaf_score b is_terminal) st
            | S depth' =>
                if is_terminal then lift (leaf_score b is_terminal) st
                else if maximizing then
                  (column <~ random_choice valid_locations ;;
                   r <~ max_loop (fun l a b => minimax depth' l a b false)
                          l valid_locations NegInf column alpha beta ;;
                   ret (Some (fst r), snd r)) st
                else
                  (column <~ random_choice valid_locations ;;
                   r <~ min_loop (fun l a b => minimax depth' l a b true)
                          l valid_locations PosInf column alpha beta ;;
                   ret (Some (fst r), snd r)) st
            end
        end
    end.
Proof.
  intros Hl.
  destruct depth; cbn [minimax]; unfold mbind at 1, load; rewrite Hl;
    unfold mbind at 1, lift at 1;
    (destruct (get_valid_locations b); [| reflexivity]);
    unfold mbind at 1, lift at 1;
    (destruct (is_terminal_node b) as [[|] |]; try destruct maximizing;
     reflexivity).
Qed.

Lemma minimax_refines (depth : nat) :
  forall (l : loc) (b : board) alpha beta maximizing st,
    heap st !! l = Some b ->
    refines (minimax depth l alpha beta maximizing)
            (search depth b alpha beta maximizing) st.
Proof.
  induction depth as [| depth IH]; intros l b alpha beta maximizing st Hl;
    unfold refines; rewrite (minimax_unfold _ _ _ _ _ _ _ Hl); cbn [search];
    (destruct (get_valid_locations b) as [vs | e]; cbn [bind];
       [| reflexivity]);
    (destruct (is_terminal_node b) as [t | e]; cbn [bind]; [| reflexivity]).
  - apply refines_lift.
  - destruct t; [apply refines_lift |].
    destruct vs as [| v0 vs]; [destruct maximizing; reflexivity |].
    pose (st1 := mkState (heap st) (fun k => rng st (S k))).
    pose (seed := nth (rng st 0%nat mod length (v0 :: vs)) (v0 :: vs) v0).
    assert (Hl1 : heap st1 !! l = Some b) by exact Hl.
    destruct maximizing; cbn [first_choice bind].
    + rewrite (max_scan_seed _ b (v0 :: vs) v0 seed)
        by (auto using search_fin; discriminate).
      pose proof (max_loop_refines _ _
                    (fun l b a be st H => IH l b a be false st H)
                    (v0 :: vs) l b NegInf seed alpha beta st1 Hl1) as Hloop.
      unfold refines in Hloop.
      unfold mbind at 1, random_choice.
      unfold st1, seed in Hloop |- *. clear Hl1.
      match type of Hloop with match ?m with _ => _ end =>
        destruct m as [r | e] end.
      * destruct Hloop as (st2 & Hloop & Hpres). cbn [bind].
        exists st2. split; [unfold mbind; now rewrite Hloop |].
        eapply preserved_trans; [| exact Hpres].
        apply (preserved_rng st).
      * cbn [bind]. unfold mbind. now rewrite Hloop.
    + rewrite (min_scan_seed _ b (v0 :: vs) v0 seed)
        by (auto using search_fin; discriminate).
      pose proof (min_loop_refines _ _
                    (fun l b a be st H => IH l b a be true st H)
                    (v0 :: vs) l b PosInf seed alpha beta st1 Hl1) as Hloop.
      unfold refines in Hloop.
      unfold mbind at 1, random_choice.
      unfold st1, seed in Hloop |- *. clear Hl1.
      match type of Hloop with match ?m with _ => _ end =>
        destruct m as [r | e] end.
      * destruct Hloop as (st2 & Hloop & Hpres). cbn [bind].
        exists st2. split; [unfold mbind; now rewrite Hloop |].
        eapply preserved_trans; [| exact Hpres].
        apply (preserved_rng st).
      * cbn [bind]. unfold mbind. now rewrite Hloop.
Qed.

(** ** Order facts on scores *)

Ltac bool_absurd :=
  match goal with
  | H : true = false |- _ => discriminate H
  | H : false = true |- _ => discriminate H
  end.

Ltac ext_cases :=
  unfold within, ext_max, ext_min, ext_geb in *;
  repeat (match goal with x : ext |- _ => destruct x end;
          cbn [ext_ltb negb] in *; try bool_absurd).

Ltac norm_hyps :=
  repeat match goal with
         | H : _ /\ _ |- _ => destruct H
         | H : true = true -> _ |- _ => specialize (H eq_refl)
         | H : false = false -> _ |- _ => specialize (H eq_refl)
         | H : true = false -> _ |- _ => clear H
         | H : false = true -> _ |- _ => clear H
         | H : true = true |- _ => clear H
         | H : false = false |- _ => clear H
         | H : Fin _ = Fin _ |- _ => injection H as H
         | H : @eq ext _ _ |- _ => discriminate H
         | H : @eq bool _ _ |- _ => discriminate H
         end.

Ltac z_cases :=
  repeat (match goal with
          | H : context [(?a <? ?b)] |- _ => destruct (Z.ltb_spec a b)
          | |- context [(?a <? ?b)] => destruct (Z.ltb_spec a b)
          end; cbn [ext_ltb negb] in *; try bool_absurd);
  norm_hyps;
  repeat split; intros; norm_hyps;
  try reflexivity; try (f_equal; lia); try lia.

Ltac ext_solve := intros; ext_cases; z_cases.

Lemma within_refl (alpha beta r : ext) : within alpha beta r r.
Proof. unfold within. auto. Qed.

Lemma within_full (r v : ext) (z : Z) :
  r = Fin z -> within NegInf PosInf r v -> v = r.
Proof. intros -> (_ & H & _). apply H; reflexivity. Qed.

Lemma ext_max_ge_l (x y : ext) : ext_ltb (ext_max x y) x = false.
Proof. ext_solve. Qed.

Lemma ext_min_le_l (x y : ext) : ext_ltb x (ext_min x y) = false.
Proof. ext_solve. Qed.

Lemma ext_le_trans (x y z : ext) :
  ext_ltb y x = false -> ext_ltb z y = false -> ext_ltb z x = false.
Proof. ext_solve. Qed.

(** The maximizing loop: one more column scanned. *)
Lemma max_step_break (a0 beta value P s P' : ext) (z : Z) :
  let new := Fin z in
  let value' := if ext_ltb value new then new else value in
  (ext_ltb a0 value = false -> ext_ltb a0 P = false) ->
  (ext_ltb a0 value = true -> P = value) ->
  ext_ltb (ext_max a0 value) beta = true ->
  within (ext_max a0 value) beta new s ->
  ext_geb (ext_max (ext_max a0 value) value') beta = true ->
  ext_ltb P' (ext_max P s) = false ->
  within a0 beta value' P'.
Proof. cbv zeta. ext_solve. Qed.

Lemma max_step_continue (a0 beta value P s : ext) (z : Z) :
  let new := Fin z in
  let value' := if ext_ltb value new then new else value in
  (ext_ltb a0 value = false -> ext_ltb a0 P = false) ->
  (ext_ltb a0 value = true -> P = value) ->
  ext_ltb (ext_max a0 value) beta = true ->
  within (ext_max a0 value) beta new s ->
  ext_geb (ext_max (ext_max a0 value) value') beta = false ->
  (ext_ltb a0 value' = false -> ext_ltb a0 (ext_max P s) = false) /\
  (ext_ltb a0 value' = true -> ext_max P s = value') /\
  ext_ltb (ext_max a0 value') beta = true /\
  ext_max (ext_max a0 value) value' = ext_max a0 value'.
Proof. cbv zeta. ext_solve. Qed.

Lemma max_step_done (a0 beta value P : ext) :
  (ext_ltb a0 value = false -> ext_ltb a0 P = false) ->
  (ext_ltb a0 value = true -> P = value) ->
  ext_ltb (ext_max a0 value) beta = true ->
  within a0 beta value P.
Proof. ext_solve. Qed.

(** The minimizing loop: one more column scanned. *)
Lemma min_step_break (alpha b0 value P s P' : ext) (z : Z) :
  let new := Fin z in
  let value' := if ext_ltb new value then new else value in
  (ext_ltb value b0 = false -> ext_ltb P b0 = false) ->
  (ext_ltb value b0 = true -> P = value) ->
  ext_ltb alpha (ext_min b0 value) = true ->
  within alpha (ext_min b0 value) new s ->
  ext_geb alpha (ext_min (ext_min b0 value) value') = true ->
  ext_ltb (ext_min P s) P' = false ->
  within alpha b0 value' P'.
Proof. cbv zeta. ext_solve. Qed.

Lemma min_step_continue (alpha b0 value P s : ext) (z : Z) :
  let new := Fin z in
  let value' := if ext_ltb new value then new else value in
  (ext_ltb value b0 = false -> ext_ltb P b0 = false) ->
  (ext_ltb value b0 = true -> P = value) ->
  ext_ltb alpha (ext_min b0 value) = true ->
  within alpha (ext_min b0 value) new s ->
  ext_geb alpha (ext_min (ext_min b0 value) value') = false ->
  (ext_ltb value' b0 = false -> ext_ltb (ext_min P s) b0 = false) /\
  (ext_ltb value' b0 = true -> ext_min P s = value') /\
  ext_ltb alpha (ext_min b0 value') = true /\
  ext_min (ext_min b0 value) value' = ext_min b0 value'.
Proof. cbv zeta. ext_solve. Qed.

Lemma min_step_done (alpha b0 value P : ext) :
  (ext_ltb value b0 = false -> ext_ltb P b0 = false) ->
  (ext_ltb value b0 = true -> P = value) ->
  ext_ltb alpha (ext_min b0 value) = true ->
  within alpha b0 value P.
Proof. ext_solve. Qed.

Lemma ext_max_start (a0 : ext) : ext_max a0 NegInf = a0.
Proof. ext_solve. Qed.

Lemma ext_min_start (b0 : ext) : ext_min b0 PosInf = b0.
Proof. ext_solve. Qed.

(** ** Pruning does not change the score *)

Lemma ext_ltb_irrefl (x : ext) : ext_ltb x x = false.
Proof. ext_solve. Qed.

Lemma ext_ltb_neginf (x : ext) : ext_ltb x NegInf = false.
Proof. destruct x; reflexivity. Qed.

Lemma ext_ltb_posinf (x : ext) : ext_ltb PosInf x = false.
Proof. destruct x; reflexivity. Qed.

Section Bounds.
(** The pruned and the plain search one ply below. *)
Variable rec_s : board -> ext -> ext -> result (option nat * ext).
Variable rec_p : board -> result ext.
Hypothesis rec_fin : fin_rec rec_s.
Hypothesis rec_within :
  forall b a be r v,
    ext_ltb a be = true -> rec_s b a be = Ok r -> rec_p b = Ok v ->
    within a be (snd r) v.

Lemma fold_max_ge (b : board) (cols : list nat) :
  forall P P',
    for_fold cols P (fun value col =>
      child <- drop_piece b col AI_PIECE ;;
      s <- rec_p child ;;
      Ok (ext_max value s)) = Ok P' ->
    ext_ltb P' P = false.
Proof.
  induction cols as [| col rest IH]; intros P P' Hfold; cbn [for_fold] in Hfold.
  - injection Hfold as <-. apply ext_ltb_irrefl.
  - apply bind_ok_inv in Hfold as (P1 & Hbody & Hrest).
    apply bind_ok_inv in Hbody as (child & _ & Hbody).
    apply bind_ok_inv in Hbody as (s & _ & Hbody).
    injection Hbody as <-.
    eapply ext_le_trans; [apply ext_max_ge_l | apply IH, Hrest].
Qed.

Lemma fold_min_le (b : board) (cols : list nat) :
  forall P P',
    for_fold cols P (fun value col =>
      child <- drop_piece b col PLAYER_PIECE ;;
      s <- rec_p child ;;
      Ok (ext_min value s)) = Ok P' ->
    ext_ltb P P' = false.
Proof.
  induction cols as [| col rest IH]; intros P P' Hfold; cbn [for_fold] in Hfold.
  - injection Hfold as <-. apply ext_ltb_irrefl.
  - apply bind_ok_inv in Hfold as (P1 & Hbody & Hrest).
    apply bind_ok_inv in Hbody as (child & _ & Hbody).
    apply bind_ok_inv in Hbody as (s & _ & Hbody).
    injection Hbody as <-.
    eapply ext_le_trans; [apply IH, Hrest | apply ext_min_le_l].
Qed.

Lemma max_scan_within (b : board) (a0 beta : ext) (cols : list nat) :
  forall value column alpha P r P',
    (ext_ltb a0 value = false -> ext_ltb a0 P = false) ->
    (ext_ltb a0 value = true -> P = value) ->
    alpha = ext_max a0 value ->
    ext_ltb alpha beta = true ->
    max_scan rec_s b cols value column alpha beta = Ok r ->
    for_fold cols P (fun value col =>
      child <- drop_piece b col AI_PIECE ;;
      s <- rec_p child ;;
      Ok (ext_max value s)) = Ok P' ->
    within a0 beta (snd r) P'.
Proof.
  induction cols as [| col rest IH];
    intros value column alpha P r P' I1 I2 -> Hlt Hscan Hfold.
  - cbn [max_scan for_fold] in *.
    injection Hscan as <-. injection Hfold as <-.
    now apply max_step_done.
  - cbn [max_scan] in Hscan. cbn [for_fold] in Hfold.
    apply bind_ok_inv in Hscan as (b' & Hdrop & Hscan).
    apply bind_ok_inv in Hscan as (rr & Hrr & Hscan).
    apply bind_ok_inv in Hfold as (P1 & Hbody & Hrest).
    rewrite Hdrop in Hbody. cbn [bind] in Hbody.
    apply bind_ok_inv in Hbody as (s & Hs & Hbody).
    injection Hbody as <-.
    destruct (rec_fin _ _ _ _ Hrr) as [z Hz].
    pose proof (rec_within _ _ _ _ _ Hlt Hrr Hs) as Hw.
    rewrite Hz in Hw, Hscan.
    pose proof (max_step_break a0 beta value P s P' z) as Hbreak.
    pose proof (max_step_continue a0 beta value P s z) as Hcont.
    cbv zeta in Hbreak, Hcont.
    destruct (ext_ltb value (Fin z)); cbv beta iota zeta in Hscan;
      match type of Hscan with
      | (if ?c then _ else _) = _ => destruct c eqn:Hge
      end.
    + injection Hscan as <-. cbn [snd].
      apply Hbreak; auto. eapply fold_max_ge, Hrest.
    + destruct Hcont as (J1 & J2 & J3 & J4); auto.
      rewrite J4 in Hscan.
      exact (IH _ _ _ _ _ _ J1 J2 eq_refl J3 Hscan Hrest).
    + injection Hscan as <-. cbn [snd].
      apply Hbreak; auto. eapply fold_max_ge, Hrest.
    + destruct Hcont as (J1 & J2 & J3 & J4); auto.
      rewrite J4 in Hscan.
      exact (IH _ _ _ _ _ _ J1 J2 eq_refl J3 Hscan Hrest).
Qed.

Lemma min_scan_within (b : board) (alpha b0 : ext) (cols : list nat) :
  forall value column beta P r P',
    (ext_ltb value b0 = false -> ext_ltb P b0 = false) ->
    (ext_ltb value b0 = true -> P = value) ->
    beta = ext_min b0 value ->
    ext_ltb alpha beta = true ->
    min_scan rec_s b cols value column alpha beta = Ok r ->
    for_fold cols P (fun value col =>
      child <- drop_piece b col PLAYER_PIECE ;;
      s <- rec_p child ;;
      Ok (ext_min value s)) = Ok P' ->
    within alpha b0 (snd r) P'.
Proof.
  induction cols as [| col rest IH];
    intros value column beta P r P' I1 I2 -> Hlt Hscan Hfold.
  - cbn [min_scan for_fold] in *.
    injection Hscan as <-. injection Hfold as <-.
    now apply min_step_done.
  - cbn [min_scan] in Hscan. cbn [for_fold] in Hfold.
    apply bind_ok_inv in Hscan as (b' & Hdrop & Hscan).
    apply bind_ok_inv in Hscan as (rr & Hrr & Hscan).
    apply bind_ok_inv in Hfold as (P1 & Hbody & Hrest).
    rewrite Hdrop in Hbody. cbn [bind] in Hbody.
    apply bind_ok_inv in Hbody as (s & Hs & Hbody).
    injection Hbody as <-.
    destruct (rec_fin _ _ _ _ Hrr) as [z Hz].
    pose proof (rec_within _ _ _ _ _ Hlt Hrr Hs) as Hw.
    rewrite Hz in Hw, Hscan.
    pose proof (min_step_break alpha b0 value P s P' z) as Hbreak.
    pose proof (min_step_continue alpha b0 value P s z) as Hcont.
    cbv zeta in Hbreak, Hcont.
    destruct (ext_ltb (Fin z) value); cbv beta iota zeta in Hscan;
      match type of Hscan with
      | (if ?c then _ else _) = _ => destruct c eqn:Hge
      end.
    + injection Hscan as <-. cbn [snd].
      apply Hbreak; auto. eapply fold_min_le, Hrest.
    + destruct Hcont as (J1 & J2 & J3 & J4); auto.
      rewrite J4 in Hscan.
      exact (IH _ _ _ _ _ _ J1 J2 eq_refl J3 Hscan Hrest).
    + injection Hscan as <-. cbn [snd].
      apply Hbreak; auto. eapply fold_min_le, Hrest.
    + destruct Hcont as (J1 & J2 & J3 & J4); auto.
      rewrite J4 in Hscan.
      exact (IH _ _ _ _ _ _ J1 J2 eq_refl J3 Hscan Hrest).
Qed.
End Bounds.

(** Inside a window with [alpha < beta], the score [search] returns
    determines the plain minimax score as [within] says. *)
Lemma search_within (depth : nat) :
  forall (b : board) alpha beta maximizing r v,
    ext_ltb alpha beta = true ->
    search depth b alpha beta maximizing = Ok r ->
    plain_minimax depth b maximizing = Ok v ->
    within alpha beta (snd r) v.
Proof.
  induction depth as [| depth IH];
    intros b alpha beta maximizing r v Hlt Hs Hp;
    cbn [search plain_minimax] in Hs, Hp;
    apply bind_ok_inv in Hs as (vs & Hvs & Hs);
    apply bind_ok_inv in Hs as (t & Ht & Hs);
    rewrite Hvs, Ht in Hp; cbn [bind] in Hp.
  - rewrite Hs in Hp. injection Hp as <-. apply within_refl.
  - destruct t.
    { rewrite Hs in Hp. injection Hp as <-. apply within_refl. }
    destruct maximizing.
    + apply bind_ok_inv in Hs as (column & _ & Hs).
      apply bind_ok_inv in Hs as (r' & Hscan & Hs).
      injection Hs as <-. cbn [snd].
      eapply (max_scan_within
                (fun b' a be => search depth b' a be false)
                (fun b' => plain_minimax depth b' false)
                (search_fin depth false)
                (fun b' a be r v H1 H2 H3 => IH b' a be false r v H1 H2 H3)
                b alpha beta vs NegInf column alpha NegInf r' v);
        eauto;
        first [ symmetry; apply ext_max_start
              | intros H; now rewrite ext_ltb_neginf in H ].
    + apply bind_ok_inv in Hs as (column & _ & Hs).
      apply bind_ok_inv in Hs as (r' & Hscan & Hs).
      injection Hs as <-. cbn [snd].
      eapply (min_scan_within
                (fun b' a be => search depth b' a be true)
                (fun b' => plain_minimax depth b' true)
                (search_fin depth true)
                (fun b' a be r v H1 H2 H3 => IH b' a be true r v H1 H2 H3)
                b alpha beta vs PosInf column beta PosInf r' v);
        eauto;
        first [ symmetry; apply ext_min_start
              | intros H; now rewrite ext_ltb_posinf in H ].
Qed.

(** ** On a well-shaped board the search returns *)

Lemma wf_nonterminal_valid (b : board) (vs : list nat) :
  wf_board b -> is_terminal_node b = Ok false ->
  get_valid_locations b = Ok vs ->
  exists c rest, vs = c :: rest.
Proof.
  intros Hwf Ht Hvs.
  destruct (is_terminal_node_spec b false Hwf Ht)
    as (wp & wa & vs' & _ & _ & Hvs' & Heq).
  rewrite Hvs in Hvs'. injection Hvs' as <-.
  destruct vs as [| c rest]; [| eauto].
  destruct wp, wa; discriminate.
Qed.

Section Totality.
Variable rec : board -> ext -> ext -> result (option nat * ext).
Hypothesis rec_total :
  forall b a be, wf_board b -> exists r, rec b a be = Ok r.

Lemma max_scan_total (b : board) (cols : list nat) :
  wf_board b ->
  (forall c, c ∈ cols -> is_valid_location b c = Ok true) ->
  forall value column alpha beta,
    exists r, max_scan rec b cols value column alpha beta = Ok r.
Proof.
  intros Hwf. induction cols as [| col rest IH];
    intros Hvalid value column alpha beta; cbn [max_scan]; [eauto |].
  destruct (drop_piece_ok b col AI_PIECE Hwf) as (r0 & b' & _ & -> & Hwf' & _);
    [apply Hvalid; left |].
  cbn [bind]. destruct (rec_total b' alpha beta Hwf') as [rr ->]. cbn [bind].
  assert (Hrest : forall c, c ∈ rest -> is_valid_location b c = Ok true)
    by (intros; apply Hvalid; now right).
  destruct (ext_ltb value (snd rr)); cbv zeta;
    (destruct (ext_geb _ beta); [eauto | now apply IH]).
Qed.

Lemma min_scan_total (b : board) (cols : list nat) :
  wf_board b ->
  (forall c, c ∈ cols -> is_valid_location b c = Ok true) ->
  forall value column alpha beta,
    exists r, min_scan rec b cols value column alpha beta = Ok r.
Proof.
  intros Hwf. induction cols as [| col rest IH];
    intros Hvalid value column alpha beta; cbn [min_scan]; [eauto |].
  destruct (drop_piece_ok b col PLAYER_PIECE Hwf)
    as (r0 & b' & _ & -> & Hwf' & _); [apply Hvalid; left |].
  cbn [bind]. destruct (rec_total b' alpha beta Hwf') as [rr ->]. cbn [bind].
  assert (Hrest : forall c, c ∈ rest -> is_valid_location b c = Ok true)
    by (intros; apply Hvalid; now right).
  destruct (ext_ltb (snd rr) value); cbv zeta;
    (destruct (ext_geb alpha _); [eauto | now apply IH]).
Qed.
End Totality.

Lemma search_total (depth : nat) :
  forall (b : board) alpha beta maximizing,
    wf_board b -> exists r, search depth b alpha beta maximizing = Ok r.
Proof.
  induction depth as [| depth IH]; intros b alpha beta maximizing Hwf;
    cbn [search]; rewrite (get_valid_locations_eq b Hwf); cbn [bind];
    destruct (is_terminal_node_ok b Hwf) as [t Ht]; rewrite Ht; cbn [bind].
  - destruct (leaf_score_ok b t Hwf) as [z ->]. eauto.
  - destruct t; [destruct (leaf_score_ok b true Hwf) as [z ->]; eauto |].
    pose proof (get_valid_locations_eq b Hwf) as Hvs.
    destruct (wf_nonterminal_valid b _ Hwf Ht Hvs) as (c & rest & Heq).
    assert (Hvalid : forall c0, c0 ∈ c :: rest ->
                       is_valid_location b c0 = Ok true).
    { intros c0 Hin. rewrite <- Heq in Hin.
      eapply valid_location_open; eauto. }
    rewrite Heq. cbn [first_choice bind].
    destruct maximizing.
    + destruct (max_scan_total (fun b' a be => search depth b' a be false)
                  (fun b' a be H => IH b' a be false H)
                  b (c :: rest) Hwf Hvalid NegInf c alpha beta) as [r ->].
      cbn [bind]. eauto.
    + destruct (min_scan_total (fun b' a be => search depth b' a be true)
                  (fun b' a be H => IH b' a be true H)
                  b (c :: rest) Hwf Hvalid PosInf c alpha beta) as [r ->].
      cbn [bind]. eauto.
Qed.

Lemma plain_minimax_total (depth : nat) :
  forall (b : board) maximizing,
    wf_board b -> exists v, plain_minimax depth b maximizing = Ok v.
Proof.
  induction depth as [| depth IH]; intros b maximizing Hwf;
    cbn [plain_minimax]; pose proof (get_valid_locations_eq b Hwf) as Hvs;
    rewrite Hvs; cbn [bind];
    destruct (is_terminal_node_ok b Hwf) as [t Ht]; rewrite Ht; cbn [bind].
  - destruct (leaf_score_ok b t Hwf) as [z ->]. cbn [bind]. eauto.
  - destruct t;
      [destruct (leaf_score_ok b true Hwf) as [z ->]; cbn [bind]; eauto |].
    destruct maximizing; apply for_fold_ok; intros value col Hin.
    + destruct (drop_piece_ok b col AI_PIECE Hwf)
        as (r0 & b' & _ & -> & Hwf' & _);
        [eapply valid_location_open; eauto |].
      cbn [bind]. destruct (IH b' false Hwf') as [s ->]. cbn [bind]. eauto.
    + destruct (drop_piece_ok b col PLAYER_PIECE Hwf)
        as (r0 & b' & _ & -> & Hwf' & _);
        [eapply valid_location_open; eauto |].
      cbn [bind]. destruct (IH b' true Hwf') as [s ->]. cbn [bind]. eauto.
Qed.

(** The search run on the store, for a well-shaped board: it returns what
    [search] returns and keeps the store's objects. *)
Lemma minimax_returns (depth : nat) (l : loc) (b : board) alpha beta
    maximizing (st : state) :
  heap st !! l = Some b -> wf_board b ->
  exists r st',
    search depth b alpha beta maximizing = Ok r /\
    minimax depth l alpha beta maximizing st = Ok (r, st') /\
    preserved st st'.
Proof.
  intros Hl Hwf.
  destruct (search_total depth b alpha beta maximizing Hwf) as [r Hr].
  pose proof (minimax_refines depth l b alpha beta maximizing st Hl) as Href.
  unfold refines in Href. rewrite Hr in Href.
  destruct Href as (st' & Hm & Hpres). eauto.
Qed.

Lemma run_ok {A} (m : M A) (st st' : state) (a : A) :
  m st = Ok (a, st') -> run m st = Ok a.
Proof. unfold run. now intros ->. Qed.

Lemma run_ok_inv {A} (m : M A) (st : state) (a : A) :
  run m st = Ok a -> exists st', m st = Ok (a, st').
Proof.
  unfold run. destruct (m st) as [[a' st'] | e]; [| discriminate].
  intros [= ->]. eauto.
Qed.

(** ** What a call of [minimax] returns *)

Lemma minimax_run_search (depth : nat) (l : loc) (b : board) alpha beta
    maximizing (st : state) (r : option nat * ext) :
  heap st !! l = Some b ->
  run (minimax depth l alpha beta maximizing) st = Ok r ->
  search depth b alpha beta maximizing = Ok r.
Proof.
  intros Hl Hrun.
  pose proof (minimax_refines depth l b alpha beta maximizing st Hl) as Href.
  unfold refines in Href.
  destruct (search depth b alpha beta maximizing) as [r0 | e].
  - destruct Href as (st' & Hm & _). apply run_ok in Hm. congruence.
  - unfold run in Hrun. rewrite Href in Hrun. discriminate.
Qed.

Lemma minimax_leaf (depth : nat) (l : loc) (b : board) alpha beta maximizing
    (st : state) (vs : list nat) (t : bool) :
  heap st !! l = Some b ->
  get_valid_locations b = Ok vs ->
  is_terminal_node b = Ok t ->
  depth = O \/ t = true ->
  minimax depth l alpha beta maximizing st = lift (leaf_score b t) st.
Proof.
  intros Hl Hvs Ht Hleaf. rewrite (minimax_unfold _ _ _ _ _ _ _ Hl), Hvs, Ht.
  destruct depth as [| depth]; [reflexivity |].
  destruct Hleaf as [? | ->]; [discriminate | reflexivity].
Qed.

Lemma minimax_preserved (depth : nat) (l : loc) (alpha beta : ext)
    (maximizing : bool) (st st' : state) (r : option nat * ext) :
  minimax depth l alpha beta maximizing st = Ok (r, st') ->
  preserved st st'.
Proof.
  intros Hm. destruct (heap st !! l) as [b |] eqn:Hl.
  - pose proof (minimax_refines depth l b alpha beta maximizing st Hl)
      as Href.
    unfold refines in Href.
    destruct (search depth b alpha beta maximizing) as [r0 | e].
    + destruct Href as (st0 & Hm0 & Hpres).
      rewrite Hm in Hm0. injection Hm0 as _ <-. exact Hpres.
    + rewrite Hm in Href. discriminate.
  - destruct depth; cbn [minimax] in Hm; unfold mbind at 1, load in Hm;
      rewrite Hl in Hm; discriminate.
Qed.

Lemma wf_empty_board : wf_board empty_board.
Proof. split; [reflexivity | repeat constructor]. Defined.

Lemma wf_full_board_draw : wf_board full_board_draw.
Proof. split; [reflexivity | repeat constructor]. Defined.

(** * The claims *)

(** C1. For every board, depth and maximizing flag, [minimax] called with
    the full window (alpha = -infinity, beta = +infinity) returns the score
    that plain minimax, which searches every valid column without pruning,
    computes for the same board, depth and flag. *)
Theorem minimax_full_window_is_plain (depth : nat) (l : loc) (b : board)
    (maximizing : bool) (st : state) :
  heap st !! l = Some b -> wf_board b ->
  exists column score,
    run (minimax depth l NegInf PosInf maximizing) st = Ok (column, score) /\
    plain_minimax depth b maximizing = Ok score.
Proof.
  intros Hl Hwf.
  destruct (minimax_returns depth l b NegInf PosInf maximizing st Hl Hwf)
    as ([column score] & st' & Hs & Hm & _).
  destruct (plain_minimax_total depth b maximizing Hwf) as [v Hv].
  destruct (search_fin depth maximizing _ _ _ _ Hs) as [z Hz].
  pose proof (search_within depth b NegInf PosInf maximizing _ v
                eq_refl Hs Hv) as Hw.
  apply (within_full _ _ z Hz) in Hw. cbn [snd] in Hw. subst v.
  exists column, score. split; [eapply run_ok, Hm | exact Hv].
Qed.

Lemma minimax_full_window_is_plain_witness :
  exists column score,
    run (minimax 2 0%nat NegInf PosInf true) (init_state empty_board)
    = Ok (column, score) /\
    plain_minimax 2 empty_board true = Ok score.
Proof.
  apply (minimax_full_window_is_plain 2 0%nat empty_board true
           (init_state empty_board)).
  - reflexivity.
  - exact wf_empty_board.
Defined.

(** C2, as the code has it. A board is terminal exactly when a side has
    four-in-a-row or no column is droppable. At every terminal board, at
    any depth, [minimax] returns no column and the score +10^14 if the AI
    has four-in-a-row, otherwise -10^14 if the player has, otherwise 0; the
    store and the random source are left as they were, so no column is
    picked from an empty list. In particular a board with no valid column
    and no four-in-a-row for either side yields exactly (None, 0). *)
Theorem minimax_terminal_leaf (depth : nat) (l : loc) (b : board)
    (alpha beta : ext) (maximizing : bool) (st : state) :
  heap st !! l = Some b -> wf_board b ->
  exists wa wp vs,
    is_winning_move b AI_PIECE = Ok wa /\
    is_winning_move b PLAYER_PIECE = Ok wp /\
    get_valid_locations b = Ok vs /\
    is_terminal_node b = Ok (wp || wa || Nat.eqb (length vs) 0) /\
    (wp || wa || Nat.eqb (length vs) 0 = true ->
     minimax depth l alpha beta maximizing st
     = Ok ((None, Fin (if wa then WIN_SCORE
                       else if wp then - WIN_SCORE else 0)), st)) /\
    (vs = [] -> wa = false -> wp = false ->
     minimax depth l alpha beta maximizing st = Ok ((None, Fin 0), st)).
Proof.
  intros Hl Hwf.
  destruct (is_terminal_node_ok b Hwf) as [t Ht].
  destruct (is_terminal_node_spec b t Hwf Ht)
    as (wp & wa & vs & Hwp & Hwa & Hvs & Heq).
  exists wa, wp, vs. subst t.
  assert (Hleaf : wp || wa || Nat.eqb (length vs) 0 = true ->
                  minimax depth l alpha beta maximizing st
                  = Ok ((None, Fin (if wa then WIN_SCORE
                                    else if wp then - WIN_SCORE else 0)), st)).
  { intros Htrue. rewrite Htrue in Ht.
    rewrite (minimax_leaf depth l b alpha beta maximizing st vs true)
      by auto.
    unfold lift, leaf_score. rewrite Hwa, Hwp. cbn [bind].
    destruct wa, wp; reflexivity. }
  repeat (split; [assumption |]).
  intros -> -> ->. apply Hleaf. reflexivity.
Qed.

Lemma minimax_terminal_leaf_witness :
  minimax 3 0%nat NegInf PosInf true (init_state full_board_draw)
  = Ok ((None, Fin 0), init_state full_board_draw).
Proof.
  destruct (minimax_terminal_leaf 3 0%nat full_board_draw NegInf PosInf true
              (init_state full_board_draw) eq_refl wf_full_board_draw)
    as (wa & wp & vs & Hwa & Hwp & Hvs & _ & _ & Hdraw).
  apply Hdraw.
  - vm_compute in Hvs. congruence.
  - vm_compute in Hwa. congruence.
  - vm_compute in Hwp. congruence.
Defined.

(** C2 as stated fails: this full board has no valid column, yet at
    depth 1 the search returns +10^14, not 0, because the AI has
    four-in-a-row on it. *)
Lemma full_board_with_four_not_draw :
  get_valid_locations full_board_ai_four = Ok [] /\
  run (minimax 1 0%nat NegInf PosInf true) (init_state full_board_ai_four)
  = Ok (None, Fin WIN_SCORE) /\
  Fin WIN_SCORE <> Fin 0.
Proof.
  split; [vm_compute; reflexivity |].
  split; [vm_compute; reflexivity | discriminate].
Qed.

(** C4. On a board that is not terminal, [minimax] at depth 0 with the
    full window and the maximizing flag returns exactly
    (None, score_position(board, AI_PIECE)); on a terminal board at depth 0
    it returns the win, loss or draw score instead: the terminal test comes
    before the depth test. *)
Theorem minimax_depth_zero (l : loc) (b : board) (st : state) :
  heap st !! l = Some b -> wf_board b ->
  exists t,
    is_terminal_node b = Ok t /\
    (t = false ->
     exists s, score_position b AI_PIECE = Ok s /\
       minimax 0 l NegInf PosInf true st = Ok ((None, Fin s), st)) /\
    (t = true ->
     exists wa wp,
       is_winning_move b AI_PIECE = Ok wa /\
       is_winning_move b PLAYER_PIECE = Ok wp /\
       minimax 0 l NegInf PosInf true st
       = Ok ((None, Fin (if wa then WIN_SCORE
                         else if wp then - WIN_SCORE else 0)), st)).
Proof.
  intros Hl Hwf.
  destruct (is_terminal_node_ok b Hwf) as [t Ht].
  pose proof (get_valid_locations_eq b Hwf) as Hvs.
  exists t. split; [assumption |]. split; intros ->.
  - destruct (score_position_ok b AI_PIECE Hwf) as [s Hs].
    exists s. split; [assumption |].
    rewrite (minimax_leaf 0 l b NegInf PosInf true st _ false Hl Hvs Ht)
      by auto.
    unfold lift, leaf_score. now rewrite Hs.
  - destruct (is_winning_move_ok b AI_PIECE Hwf) as [wa Hwa].
    destruct (is_winning_move_ok b PLAYER_PIECE Hwf) as [wp Hwp].
    exists wa, wp. split; [assumption |]. split; [assumption |].
    rewrite (minimax_leaf 0 l b NegInf PosInf true st _ true Hl Hvs Ht)
      by auto.
    unfold lift, leaf_score. rewrite Hwa, Hwp. cbn [bind].
    destruct wa, wp; reflexivity.
Qed.

Lemma minimax_depth_zero_witness :
  minimax 0 0%nat NegInf PosInf true (init_state empty_board)
  = Ok ((None, Fin 0), init_state empty_board).
Proof.
  destruct (minimax_depth_zero 0%nat empty_board (init_state empty_board)
              eq_refl wf_empty_board) as (t & Ht & Hheur & _).
  assert (Hf : t = false) by (vm_compute in Ht; congruence).
  destruct (Hheur Hf) as (s & Hs & Hm).
  assert (Hz : s = 0) by (vm_compute in Hs; congruence).
  rewrite Hm, Hz. reflexivity.
Defined.

(** C5, as the code has it. The column [random.choice] seeds the best
    column with never reaches the caller: the first column scanned always
    replaces it, because its score is an integer and the running best
    starts at -infinity (+infinity for the minimizing side). Two calls of
    [minimax] on the same board, depth, window and flag return the same
    column and score whatever the random source and the store are, namely
    those of the search seeded with the first valid column. *)
Theorem minimax_result_independent_of_seed (depth : nat) (l1 l2 : loc)
    (b : board) (alpha beta : ext) (maximizing : bool) (st1 st2 : state)
    (r1 r2 : option nat * ext) :
  heap st1 !! l1 = Some b -> heap st2 !! l2 = Some b ->
  run (minimax depth l1 alpha beta maximizing) st1 = Ok r1 ->
  run (minimax depth l2 alpha beta maximizing) st2 = Ok r2 ->
  r1 = r2 /\ search depth b alpha beta maximizing = Ok r1.
Proof.
  intros H1 H2 Hr1 Hr2.
  apply (minimax_run_search _ _ _ _ _ _ _ _ H1) in Hr1.
  apply (minimax_run_search _ _ _ _ _ _ _ _ H2) in Hr2.
  split; congruence.
Qed.

(** On the empty board the minimizing side finds all seven columns tied at
    score 0; seeds 0 and 5 both end with column 0. *)
Lemma minimax_result_independent_of_seed_witness :
  (Some 0%nat, Fin 0) = (Some 0%nat, Fin 0) /\
  search 1 empty_board NegInf PosInf false = Ok (Some 0%nat, Fin 0).
Proof.
  apply (minimax_result_independent_of_seed 1 0%nat 0%nat empty_board
           NegInf PosInf false
           (mkState [empty_board] (fun _ => 0%nat))
           (mkState [empty_board] (fun _ => 5%nat))).
  - reflexivity.
  - reflexivity.
  - vm_compute. reflexivity.
  - vm_compute. reflexivity.
Defined.

(** C5 as stated fails: there are no board, depth of at least 1, window,
    flag and two random sources for which two runs of [minimax] on the
    same arguments return different columns. *)
Lemma seed_never_changes_column :
  ~ exists (b : board) (depth : nat) (alpha beta : ext) (maximizing : bool)
      (l : loc) (h : list board) (g1 g2 : nat -> nat)
      (c1 c2 : option nat) (v1 v2 : ext),
      (1 <= depth)%nat /\ h !! l = Some b /\
      run (minimax depth l alpha beta maximizing) (mkState h g1)
      = Ok (c1, v1) /\
      run (minimax depth l alpha beta maximizing) (mkState h g2)
      = Ok (c2, v2) /\
      c1 <> c2.
Proof.
  intros (b & depth & alpha & beta & maximizing & l & h & g1 & g2 &
          c1 & c2 & v1 & v2 & _ & Hl & Hr1 & Hr2 & Hne).
  apply (minimax_run_search depth l b _ _ _ (mkState h g1) _ Hl) in Hr1.
  apply (minimax_run_search depth l b _ _ _ (mkState h g2) _ Hl) in Hr2.
  congruence.
Qed.

(** C7. On every 6 x 7 board (whatever its cells hold, so in particular on
    every board that respects gravity), for every depth, window and flag,
    [minimax] raises no exception: it returns a result. Every column of
    [get_valid_locations] passes [is_valid_location], and on such a column
    [get_next_open_row] returns a row, never its fall-through None, and the
    move yields a 6 x 7 board again; and a board that is not terminal has a
    valid column, so [random.choice] is not given an empty list. *)
Theorem minimax_no_exception (depth : nat) (l : loc) (b : board)
    (alpha beta : ext) (maximizing : bool) (st : state) :
  heap st !! l = Some b -> wf_board b ->
  (exists r st', minimax depth l alpha beta maximizing st = Ok (r, st')) /\
  (exists vs, get_valid_locations b = Ok vs /\
     (forall col, col ∈ vs ->
        is_valid_location b col = Ok true /\
        forall piece, exists row b',
          get_next_open_row b col = Ok (Some row) /\
          drop_piece b col piece = Ok b' /\ wf_board b') /\
     (is_terminal_node b = Ok false -> vs <> [])).
Proof.
  intros Hl Hwf. split.
  - destruct (minimax_returns depth l b alpha beta maximizing st Hl Hwf)
      as (r & st' & _ & Hm & _). eauto.
  - pose proof (get_valid_locations_eq b Hwf) as Hvs.
    eexists. split; [exact Hvs |]. split.
    + intros col Hin.
      pose proof (valid_location_open b _ col Hwf Hvs Hin) as Hopen.
      split; [assumption |]. intros piece.
      destruct (drop_piece_ok b col piece Hwf Hopen)
        as (row & b' & Hrow & Hdrop & Hwf' & _).
      eauto.
    + intros Ht Hnil.
      destruct (wf_nonterminal_valid b _ Hwf Ht Hvs) as (c & rest & Heq).
      congruence.
Qed.

Lemma minimax_no_exception_witness :
  exists r st',
    minimax 2 0%nat NegInf PosInf true (init_state empty_board) = Ok (r, st').
Proof.
  apply (minimax_no_exception 2 0%nat empty_board NegInf PosInf true
           (init_state empty_board) eq_refl wf_empty_board).
Defined.

(** ** The move statements and the spec's [applyMove] *)

Lemma open_row_cell (b : board) (col row : nat) :
  wf_board b -> get_next_open_row b col = Ok (Some row) ->
  (row < ROW_COUNT)%nat /\ (col < COLUMN_COUNT)%nat /\
  get b row col = Ok EMPTY.
Proof.
  intros Hwf. unfold get_next_open_row.
  generalize (range ROW_COUNT). intros rows.
  induction rows as [| r rest IH]; simpl; [discriminate |].
  intros Hf. apply bind_ok_inv in Hf as (v & Hv & Hf).
  destruct (Z.eqb_spec v EMPTY) as [-> | _]; [| now apply IH].
  injection Hf as <-.
  destruct (get_ok_bounds b r col EMPTY Hwf Hv). auto.
Qed.

Lemma spec_applyMove_drop (b : board) (col row : nat) (piece : Z) :
  get_next_open_row b col = Ok (Some row) ->
  spec_applyMove b col piece = of_result (drop_piece b col piece).
Proof.
  intros Hrow. unfold spec_applyMove, drop_piece. rewrite Hrow. reflexivity.
Qed.

(** On a full column the assignment goes through NumPy's new axis. *)
Lemma apply_move_full_column (l : loc) (b : board) (col : nat) (piece : Z)
    (st : state) :
  heap st !! l = Some b -> get_next_open_row b col = Ok None ->
  apply_move l col piece st
  = if (col =? 0)%nat
    then Ok (length (heap st),
             mkState (heap st ++ [map (map (fun _ => piece)) b]) (rng st))
    else Raise IndexError.
Proof.
  intros Hl Hrow.
  pose proof (apply_move_refines l b col piece st Hl) as Hmove.
  unfold drop_piece in Hmove. rewrite Hrow in Hmove.
  cbn [bind setitem] in Hmove.
  destruct (col =? 0)%nat; exact Hmove.
Qed.

Lemma fill_wf_board (b : board) (piece : Z) :
  wf_board b ->
  map (map (fun _ => piece)) b
  = replicate ROW_COUNT (replicate COLUMN_COUNT piece).
Proof.
  intros [Hlen Hrows]. rewrite <- Hlen. clear Hlen.
  induction Hrows as [| row rest Hrow _ IH]; [reflexivity |].
  cbn [map length replicate]. rewrite IH. f_equal.
  rewrite <- Hrow. clear. induction row as [| x row IH]; [reflexivity |].
  cbn [map length replicate]. now rewrite IH.
Qed.

Section SpecScansAgree.
Variable rec : board -> ext -> ext -> result (option nat * ext).
Variable srec : board -> ext -> ext -> outcome (option nat * ext).
Hypothesis srec_rec :
  forall b a be, wf_board b -> srec b a be = of_result (rec b a be).

Lemma spec_max_scan_agrees (b : board) (cols : list nat) :
  wf_board b ->
  (forall c, c ∈ cols -> is_valid_location b c = Ok true) ->
  forall value column alpha beta,
    spec_max_scan srec b cols value column alpha beta
    = of_result (max_scan rec b cols value column alpha beta).
Proof.
  intros Hwf. induction cols as [| col rest IH]; intros Hopen value column
    alpha beta; [reflexivity |].
  destruct (drop_piece_ok b col AI_PIECE Hwf (Hopen col ltac:(left)))
    as (row & b' & Hrow & Hdrop & Hwf' & _).
  cbn [spec_max_scan max_scan].
  rewrite (spec_applyMove_drop b col row AI_PIECE Hrow), Hdrop.
  cbn [of_result obind bind]. rewrite (srec_rec b' alpha beta Hwf').
  destruct (rec b' alpha beta) as [r | e]; [| reflexivity].
  cbn [of_result obind bind].
  destruct (ext_ltb value (snd r));
    match goal with
    | |- context [ext_geb ?a ?be] => destruct (ext_geb a be)
    end; first [ reflexivity | apply IH; intros c Hc; apply Hopen; now right ].
Qed.

Lemma spec_min_scan_agrees (b : board) (cols : list nat) :
  wf_board b ->
  (forall c, c ∈ cols -> is_valid_location b c = Ok true) ->
  forall value column alpha beta,
    spec_min_scan srec b cols value column alpha beta
    = of_result (min_scan rec b cols value column alpha beta).
Proof.
  intros Hwf. induction cols as [| col rest IH]; intros Hopen value column
    alpha beta; [reflexivity |].
  destruct (drop_piece_ok b col PLAYER_PIECE Hwf (Hopen col ltac:(left)))
    as (row & b' & Hrow & Hdrop & Hwf' & _).
  cbn [spec_min_scan min_scan].
  rewrite (spec_applyMove_drop b col row PLAYER_PIECE Hrow), Hdrop.
  cbn [of_result obind bind]. rewrite (srec_rec b' alpha beta Hwf').
  destruct (rec b' alpha beta) as [r | e]; [| reflexivity].
  cbn [of_result obind bind].
  destruct (ext_ltb (snd r) value);
    match goal with
    | |- context [ext_geb ?a ?be] => destruct (ext_geb a be)
    end; first [ reflexivity | apply IH; intros c Hc; apply Hopen; now right ].
Qed.
End SpecScansAgree.

(** The search never asks for a move into a full column: with the spec's
    [applyMove] in place of the move statements it computes the same. *)
Lemma spec_search_agrees (depth : nat) :
  forall (b : board) alpha beta maximizing,
    wf_board b ->
    spec_search depth b alpha beta maximizing
    = of_result (search depth b alpha beta maximizing).
Proof.
  induction depth as [| depth IH]; intros b alpha beta maximizing Hwf.
  - cbn [spec_search search].
    destruct (get_valid_locations b) as [vs | e]; [| reflexivity].
    cbn [of_result obind bind].
    destruct (is_terminal_node b) as [t | e]; reflexivity.
  - cbn [spec_search search].
    destruct (get_valid_locations b) as [vs | e] eqn:Hvs; [| reflexivity].
    cbn [of_result obind bind].
    destruct (is_terminal_node b) as [t | e]; [| reflexivity].
    cbn [of_result obind bind].
    destruct t; [reflexivity |].
    assert (Hopen : forall c, c ∈ vs -> is_valid_location b c = Ok true)
      by (intros c Hc; exact (valid_location_open b vs c Hwf Hvs Hc)).
    destruct maximizing;
      (destruct (first_choice vs) as [column | e]; [| reflexivity]);
      cbn [of_result obind bind].
    + rewrite (spec_max_scan_agrees
                 (fun b' a be => search depth b' a be false)
                 (fun b' a be => spec_search depth b' a be false)
                 (fun b' a be Hb' => IH b' a be false Hb')
                 b vs Hwf Hopen).
      destruct (max_scan _ b vs NegInf column alpha beta); reflexivity.
    + rewrite (spec_min_scan_agrees
                 (fun b' a be => search depth b' a be true)
                 (fun b' a be => spec_search depth b' a be true)
                 (fun b' a be Hb' => IH b' a be true Hb')
                 b vs Hwf Hopen).
      destruct (min_scan _ b vs PosInf column alpha beta); reflexivity.
Qed.


Lemma wf_midgame_board : wf_board midgame_board.
Proof.
  split; [reflexivity |].
  repeat apply Forall_cons_2; try apply Forall_nil_2; reflexivity.
Qed.





(** C10. On a board that is not terminal, at every depth of at least 1 and
    for every window and flag, [minimax] returns a column, never None, and
    that column is one of [get_valid_locations(board)], so
    [is_valid_location] accepts it. *)
Theorem minimax_column_valid (depth : nat) (l : loc) (b : board)
    (alpha beta : ext) (maximizing : bool) (st : state) (vs : list nat) :
  heap st !! l = Some b -> wf_board b ->
  (1 <= depth)%nat ->
  is_terminal_node b = Ok false ->
  get_valid_locations b = Ok vs ->
  exists col score,
    run (minimax depth l alpha beta maximizing) st = Ok (Some col, score) /\
    col ∈ vs /\
    is_valid_location b col = Ok true.
Proof.
  intros Hl Hwf Hdepth Ht Hvs.
  destruct depth as [| depth]; [lia |].
  destruct (minimax_returns (S depth) l b alpha beta maximizing st Hl Hwf)
    as (r & st' & Hs & Hm & _).
  destruct (search_node depth b alpha beta maximizing vs r
              (search_fin depth (negb maximizing)) Hvs Ht Hs)
    as (col & z & -> & Hin).
  exists col, (Fin z). split; [eapply run_ok, Hm |].
  split; [assumption | eapply valid_location_open; eauto].
Qed.

Lemma minimax_column_valid_witness :
  exists col score,
    run (minimax 2 0%nat NegInf PosInf true) (init_state empty_board)
    = Ok (Some col, score) /\
    col ∈ [0; 1; 2; 3; 4; 5; 6]%nat /\
    is_valid_location empty_board col = Ok true.
Proof.
  apply (minimax_column_valid 2 0%nat empty_board NegInf PosInf true
           (init_state empty_board) [0; 1; 2; 3; 4; 5; 6]%nat
           eq_refl wf_empty_board).
  - lia.
  - vm_compute. reflexivity.
  - vm_compute. reflexivity.
Defined.

(** The empty board at depths 1 to 4, full window, maximizing side: the
    search returns the center column. *)
Lemma empty_board_shallow_search :
  Forall (fun depth =>
            exists score,
              search depth empty_board NegInf PosInf true
              = Ok (Some (COLUMN_COUNT / 2)%nat, score))
         [1; 2; 3; 4]%nat.
Proof. repeat constructor; eexists; vm_compute; reflexivity. Qed.

(** * Further properties of the board helpers *)

Lemma filter_strongly_sorted (f : nat -> bool) (l : list nat) :
  StronglySorted lt l -> StronglySorted lt (List.filter f l).
Proof.
  induction 1 as [| x l Hs IH Hx]; simpl; [constructor |].
  destruct (f x); [| exact IH].
  constructor; [exact IH |].
  apply List.Forall_forall. intros y Hy. apply filter_In in Hy as [Hy _].
  rewrite List.Forall_forall in Hx. now apply Hx.
Qed.

Lemma seq_strongly_sorted (n a : nat) : StronglySorted lt (seq a n).
Proof.
  revert a. induction n as [| n IH]; intros a; simpl; constructor; [apply IH |].
  apply List.Forall_forall. intros y Hy. apply in_seq in Hy. lia.
Qed.

Lemma get_valid_locations_sorted_open_core (b : board) (vs : list nat) :
  wf_board b -> get_valid_locations b = Ok vs ->
  (forall c, c ∈ vs <->
     (c < COLUMN_COUNT)%nat /\ get b (ROW_COUNT - 1) c = Ok EMPTY) /\
  StronglySorted lt vs.
Proof.
  intros Hwf Hvs. rewrite (get_valid_locations_eq b Hwf) in Hvs.
  assert (Heq : vs = List.filter (is_open b) (range COLUMN_COUNT))
    by congruence.
  split.
  - intros c. rewrite Heq, list_elem_of_In, filter_In, <- list_elem_of_In.
    rewrite elem_of_range. unfold is_open, is_valid_location.
    split; intros [Hc Ho]; (split; [exact Hc |]).
    + destruct (get b (ROW_COUNT - 1) c) as [v | e]; cbn [bind] in Ho;
        [| discriminate].
      destruct (Z.eqb_spec v EMPTY); [congruence | discriminate].
    + rewrite Ho. reflexivity.
  - rewrite Heq. apply filter_strongly_sorted, seq_strongly_sorted.
Qed.

(** X1. [get_valid_locations] returns exactly the columns whose top cell is
    empty, each once, in ascending order. *)
Theorem get_valid_locations_sorted_open (b : board) (vs : list nat) :
  wf_board b -> get_valid_locations b = Ok vs ->
  (forall c, c ∈ vs <->
     (c < COLUMN_COUNT)%nat /\ get b (ROW_COUNT - 1) c = Ok EMPTY) /\
  StronglySorted lt vs.
Proof. apply get_valid_locations_sorted_open_core. Qed.

Lemma get_valid_locations_sorted_open_witness :
  StronglySorted lt [0; 1; 2; 3; 4; 5; 6]%nat.
Proof.
  apply (get_valid_locations_sorted_open empty_board [0; 1; 2; 3; 4; 5; 6]%nat
           wf_empty_board).
  vm_compute. reflexivity.
Defined.

Lemma first_open_row_lowest (b : board) (col : nat) (rows : list nat) :
  forall r,
    first_open_row b col rows = Ok (Some r) ->
    exists before after,
      rows = before ++ r :: after /\ get b r col = Ok EMPTY /\
      forall r', r' ∈ before ->
        exists v, get b r' col = Ok v /\ v <> EMPTY.
Proof.
  induction rows as [| r0 rows IH]; intros r Hf; simpl in Hf; [discriminate |].
  apply bind_ok_inv in Hf as (v & Hv & Hf).
  destruct (Z.eqb_spec v EMPTY) as [-> | Hne].
  - injection Hf as <-. exists [], rows. split; [reflexivity |].
    split; [assumption |]. intros r' Hr'. inversion Hr'.
  - destruct (IH r Hf) as (before & after & -> & He & Hb).
    exists (r0 :: before), after. split; [reflexivity |].
    split; [assumption |]. intros r' Hr'.
    apply elem_of_cons in Hr' as [-> | Hr']; [eauto | now apply Hb].
Qed.

Lemma first_open_row_none (b : board) (col : nat) (rows : list nat) :
  first_open_row b col rows = Ok None ->
  forall r', r' ∈ rows -> exists v, get b r' col = Ok v /\ v <> EMPTY.
Proof.
  induction rows as [| r0 rows IH]; intros Hf r' Hr'; [inversion Hr' |].
  simpl in Hf. apply bind_ok_inv in Hf as (v & Hv & Hf).
  destruct (Z.eqb_spec v EMPTY) as [-> | Hne]; [discriminate |].
  apply elem_of_cons in Hr' as [-> | Hr']; [eauto | now apply IH].
Qed.

Lemma get_next_open_row_lowest_core (b : board) (col : nat) :
  (forall r, get_next_open_row b col = Ok (Some r) ->
     (r < ROW_COUNT)%nat /\ get b r col = Ok EMPTY /\
     forall r', (r' < r)%nat ->
       exists v, get b r' col = Ok v /\ v <> EMPTY) /\
  (get_next_open_row b col = Ok None ->
     forall r', (r' < ROW_COUNT)%nat ->
       exists v, get b r' col = Ok v /\ v <> EMPTY).
Proof.
  unfold get_next_open_row. split.
  - intros r Hf.
    destruct (first_open_row_lowest b col _ r Hf)
      as (before & after & Hrows & He & Hb).
    assert (Hin : r ∈ range ROW_COUNT)
      by (rewrite Hrows; apply elem_of_app; right; left).
    apply elem_of_range in Hin. split; [exact Hin |]. split; [exact He |].
    assert (Hbefore : before = seq 0 r).
    { unfold range in Hrows.
      assert (Hr : seq 0 ROW_COUNT !! length before = Some r).
      { rewrite Hrows. apply list_lookup_middle. reflexivity. }
      apply lookup_seq in Hr as [Hr Hlt]. simpl in Hr. subst r.
      assert (Htake : take (length before) (seq 0 ROW_COUNT) = before).
      { rewrite Hrows. apply take_app_length. }
      rewrite take_seq, Nat.min_l in Htake by lia. now symmetry. }
    intros r' Hr'. apply Hb. rewrite Hbefore. apply elem_of_seq. lia.
  - intros Hf r' Hr'. apply (first_open_row_none b col _ Hf).
    now apply elem_of_range.
Qed.

(** X2. [get_next_open_row] returns the lowest empty row of the column:
    the cell there is empty and every cell below it holds a piece. It
    returns None only when none of the six cells of the column is empty. *)
Theorem get_next_open_row_lowest (b : board) (col : nat) :
  (forall r, get_next_open_row b col = Ok (Some r) ->
     (r < ROW_COUNT)%nat /\ get b r col = Ok EMPTY /\
     forall r', (r' < r)%nat ->
       exists v, get b r' col = Ok v /\ v <> EMPTY) /\
  (get_next_open_row b col = Ok None ->
     forall r', (r' < ROW_COUNT)%nat ->
       exists v, get b r' col = Ok v /\ v <> EMPTY).
Proof. apply get_next_open_row_lowest_core. Qed.

Lemma get_next_open_row_lowest_witness :
  ((3 < ROW_COUNT)%nat /\ get midgame_board 3 3 = Ok EMPTY /\
   forall r', (r' < 3)%nat ->
     exists v, get midgame_board r' 3 = Ok v /\ v <> EMPTY) /\
  (forall r', (r' < ROW_COUNT)%nat ->
     exists v, get full_board_draw r' 2 = Ok v /\ v <> EMPTY).
Proof.
  split.
  - apply (proj1 (get_next_open_row_lowest midgame_board 3) 3%nat).
    vm_compute. reflexivity.
  - apply (proj2 (get_next_open_row_lowest full_board_draw 2)).
    vm_compute. reflexivity.
Defined.

(** X3. A column index past the last column is an index error for both
    [is_valid_location] and [get_next_open_row]. *)
Theorem column_out_of_range (b : board) (col : nat) :
  wf_board b -> (COLUMN_COUNT <= col)%nat ->
  is_valid_location b col = Raise IndexError /\
  get_next_open_row b col = Raise IndexError.
Proof.
  intros [Hlen Hrows] Hcol.
  assert (Hget : forall r, get b r col = Raise IndexError).
  { intros r. unfold get. destruct (b !! r) as [row |] eqn:Hrow; [| reflexivity].
    eapply Forall_lookup_1 in Hrows; eauto. simpl in Hrows.
    destruct (row !! col) eqn:Hc; [| reflexivity].
    apply lookup_lt_Some in Hc. lia. }
  unfold is_valid_location, get_next_open_row. cbn [range ROW_COUNT seq first_open_row].
  rewrite !Hget. split; reflexivity.
Qed.

Lemma column_out_of_range_witness :
  is_valid_location empty_board 7 = Raise IndexError /\
  get_next_open_row empty_board 7 = Raise IndexError.
Proof.
  apply (column_out_of_range empty_board 7 wf_empty_board).
  unfold COLUMN_COUNT. lia.
Defined.

(** ** Gravity *)

Lemma cell_get (b : board) (r c : nat) (v : Z) :
  get b r c = Ok v -> cell b r c = v.
Proof. unfold cell. now intros ->. Qed.

Lemma gravity_step (b : board) :
  gravity b = true <->
  forall c r, (c < COLUMN_COUNT)%nat -> (S r < ROW_COUNT)%nat ->
    cell b r c = EMPTY -> cell b (S r) c = EMPTY.
Proof.
  unfold gravity. rewrite forallb_forall. split.
  - intros H c r Hc Hr He.
    specialize (H c). rewrite forallb_forall in H.
    assert (Hcin : In c (range COLUMN_COUNT))
      by (apply list_elem_of_In, elem_of_range; exact Hc).
    assert (Hrin : In r (range (ROW_COUNT - 1)))
      by (apply list_elem_of_In, elem_of_range; unfold ROW_COUNT in *; lia).
    specialize (H Hcin r Hrin). rewrite He in H. simpl in H.
    now apply Z.eqb_eq in H.
  - intros H c Hc. apply forallb_forall. intros r Hr.
    apply list_elem_of_In, elem_of_range in Hc, Hr.
    destruct (Z.eqb_spec (cell b r c) EMPTY) as [He | Hne]; [| reflexivity].
    simpl. apply Z.eqb_eq, H; auto. unfold ROW_COUNT in *. lia.
Qed.

Lemma gravity_above (b : board) (c r r' : nat) :
  gravity b = true -> (c < COLUMN_COUNT)%nat ->
  (r <= r')%nat -> (r' < ROW_COUNT)%nat ->
  cell b r c = EMPTY -> cell b r' c = EMPTY.
Proof.
  intros Hg Hc Hle Hr' He. rewrite gravity_step in Hg.
  induction Hle as [| r' Hle IH]; [exact He |].
  apply Hg; auto. apply IH. lia.
Qed.

Lemma first_open_row_all_full (b : board) (col : nat) (rows : list nat) :
  (forall r, r ∈ rows -> exists v, get b r col = Ok v /\ v <> EMPTY) ->
  first_open_row b col rows = Ok None.
Proof.
  induction rows as [| r0 rows IH]; intros Hfull; simpl; [reflexivity |].
  destruct (Hfull r0) as (v & -> & Hne); [left |]. cbn [bind].
  destruct (Z.eqb_spec v EMPTY); [contradiction |].
  apply IH. intros r Hr. apply Hfull. now right.
Qed.

(** X4. On a board that respects gravity the two column tests agree: the
    top cell of a column is occupied exactly when [get_next_open_row] finds
    no row in it. *)
Theorem full_column_no_open_row (b : board) (col : nat) :
  wf_board b -> gravity b = true -> (col < COLUMN_COUNT)%nat ->
  (is_valid_location b col = Ok false <-> get_next_open_row b col = Ok None).
Proof.
  intros Hwf Hg Hcol.
  destruct (wf_get b (ROW_COUNT - 1) col Hwf) as [top Htop];
    [unfold ROW_COUNT; lia | assumption |].
  unfold is_valid_location. rewrite Htop. cbn [bind]. split.
  - intros Hfalse. injection Hfalse as Hfalse. apply Z.eqb_neq in Hfalse.
    apply first_open_row_all_full. intros r Hr. apply elem_of_range in Hr.
    destruct (wf_get b r col Hwf Hr Hcol) as [v Hv].
    exists v. split; [assumption |]. intros ->.
    apply Hfalse. rewrite <- (cell_get _ _ _ _ Htop).
    apply (gravity_above b col r); auto;
      first [ now apply cell_get | unfold ROW_COUNT in *; lia ].
  - intros Hnone.
    destruct (proj2 (get_next_open_row_lowest_core b col) Hnone (ROW_COUNT - 1)%nat)
      as (v & Hv & Hne); [unfold ROW_COUNT; lia |].
    rewrite Htop in Hv. injection Hv as ->.
    f_equal. now apply Z.eqb_neq.
Qed.

Lemma full_column_no_open_row_witness :
  is_valid_location column0_full 0 = Ok false <->
  get_next_open_row column0_full 0 = Ok None.
Proof.
  apply (full_column_no_open_row column0_full 0).
  - split; [reflexivity | repeat constructor].
  - vm_compute. reflexivity.
  - unfold COLUMN_COUNT. lia.
Defined.

Lemma drop_piece_wf (b b' : board) (col : nat) (piece : Z) :
  wf_board b -> drop_piece b col piece = Ok b' -> wf_board b'.
Proof.
  intros [Hlen Hrows] Hdrop. unfold drop_piece in Hdrop.
  apply bind_ok_inv in Hdrop as (row & _ & Hset).
  unfold setitem in Hset. destruct row as [r |].
  - destruct (b !! r) as [cells |] eqn:Hcells; [| discriminate].
    destruct (col <? length cells)%nat; [| discriminate].
    injection Hset as <-. split.
    + now rewrite length_insert.
    + apply Forall_insert; [assumption |]. rewrite length_insert.
      eapply Forall_lookup_1 in Hrows; eauto.
  - destruct (col =? 0)%nat; [| discriminate]. injection Hset as <-.
    split.
    + now rewrite length_map.
    + apply Forall_map. eapply Forall_impl; [exact Hrows |].
      intros row Hrow. simpl. now rewrite length_map.
Qed.

Lemma drop_piece_keeps_gravity_core (b b' : board) (col : nat) (piece : Z) :
  wf_board b -> gravity b = true ->
  is_valid_location b col = Ok true -> piece <> EMPTY ->
  drop_piece b col piece = Ok b' ->
  wf_board b' /\ gravity b' = true.
Proof.
  intros Hwf Hg Hopen Hpiece Hdrop.
  destruct (drop_piece_ok b col piece Hwf Hopen)
    as (row & b0 & Hrow & Hdrop0 & Hwf' & Hempty & Hnew & Hframe).
  rewrite Hdrop in Hdrop0. injection Hdrop0 as <-.
  split; [exact Hwf' |].
  destruct (proj1 (get_next_open_row_lowest_core b col) row Hrow)
    as (Hr & _ & Hbelow).
  apply gravity_step. intros c r Hc Hr' He.
  destruct (wf_get b' r c Hwf') as [v Hv]; [lia | assumption |].
  destruct (wf_get b' (S r) c Hwf') as [v' Hv']; [assumption | assumption |].
  rewrite (cell_get _ _ _ _ Hv) in He. rewrite (cell_get _ _ _ _ Hv').
  subst v.
  destruct (decide ((r, c) = (row, col))) as [Heq | Hne].
  { injection Heq as -> ->. rewrite Hnew in Hv. congruence. }
  rewrite (Hframe r c Hne) in Hv.
  destruct (decide ((S r, c) = (row, col))) as [Heq' | Hne'].
  { injection Heq' as <- ->.
    destruct (Hbelow r) as (v0 & Hv0 & Hne0); [lia |]. congruence. }
  rewrite (Hframe (S r) c Hne') in Hv'.
  rewrite gravity_step in Hg.
  rewrite <- (cell_get _ _ _ _ Hv'). apply Hg; auto.
  now apply cell_get.
Qed.

(** X5. Dropping a piece into an open column keeps gravity: the piece
    lands on the lowest empty cell of the column, so no piece ends up
    above an empty cell. *)
Theorem drop_piece_keeps_gravity (b b' : board) (col : nat) (piece : Z) :
  wf_board b -> gravity b = true ->
  is_valid_location b col = Ok true -> piece <> EMPTY ->
  drop_piece b col piece = Ok b' ->
  wf_board b' /\ gravity b' = true.
Proof. apply drop_piece_keeps_gravity_core. Qed.

Lemma drop_piece_keeps_gravity_witness :
  exists b', drop_piece empty_board 3 AI_PIECE = Ok b' /\
             wf_board b' /\ gravity b' = true.
Proof.
  eexists. split; [vm_compute; reflexivity |].
  apply (drop_piece_keeps_gravity empty_board _ 3 AI_PIECE wf_empty_board).
  - vm_compute. reflexivity.
  - vm_compute. reflexivity.
  - discriminate.
  - vm_compute. reflexivity.
Defined.

(** ** Win detection *)

Lemma all_of_true {A} (xs : list A) (f : A -> result bool) :
  (forall x, x ∈ xs -> exists r, f x = Ok r) ->
  (all_of xs f = Ok true <-> forall x, x ∈ xs -> f x = Ok true).
Proof.
  induction xs as [| x xs IH]; intros Hok; simpl.
  - split; [intros _ y Hy; inversion Hy | reflexivity].
  - destruct (Hok x) as [r Hr]; [left |]. rewrite Hr. cbn [bind].
    assert (Hok' : forall y, y ∈ xs -> exists r, f y = Ok r)
      by (intros; apply Hok; now right).
    destruct r.
    + rewrite (IH Hok'). split.
      * intros H y Hy. apply elem_of_cons in Hy as [-> | Hy]; auto.
      * intros H y Hy. apply H. now right.
    + split; [discriminate |]. intros H.
      specialize (H x (list_elem_of_here _ _)). congruence.
Qed.

Lemma any_of_true {A} (xs : list A) (f : A -> result bool) :
  (forall x, x ∈ xs -> exists r, f x = Ok r) ->
  (any_of xs f = Ok true <-> exists x, x ∈ xs /\ f x = Ok true).
Proof.
  induction xs as [| x xs IH]; intros Hok; simpl.
  - split; [discriminate | intros (y & Hy & _); inversion Hy].
  - destruct (Hok x) as [r Hr]; [left |]. rewrite Hr. cbn [bind].
    assert (Hok' : forall y, y ∈ xs -> exists r, f y = Ok r)
      by (intros; apply Hok; now right).
    destruct r.
    + split; [| reflexivity]. intros _. exists x. split; [left | assumption].
    + rewrite (IH Hok'). split.
      * intros (y & Hy & Hfy). exists y. split; [now right | assumption].
      * intros (y & Hy & Hfy).
        apply elem_of_cons in Hy as [-> | Hy]; [congruence | eauto].
Qed.

Lemma window_scan_true (b : board) (piece : Z) (cs rs : list nat)
    (fr fc : nat -> nat -> nat -> nat) :
  wf_board b ->
  (forall c r i, c ∈ cs -> r ∈ rs -> (i < 4)%nat ->
     (fr c r i < ROW_COUNT)%nat /\ (fc c r i < COLUMN_COUNT)%nat) ->
  (any_of cs (fun c =>
     any_of rs (fun r =>
       all_of (range 4) (fun i =>
         v <- get b (fr c r i) (fc c r i) ;; Ok (v =? piece)))) = Ok true
   <-> exists c r, c ∈ cs /\ r ∈ rs /\
         forall i, (i < 4)%nat -> get b (fr c r i) (fc c r i) = Ok piece).
Proof.
  intros Hwf Hin.
  assert (Hcell : forall c r i, c ∈ cs -> r ∈ rs -> i ∈ range 4 ->
            exists v, get b (fr c r i) (fc c r i) = Ok v).
  { intros c r i Hc Hr Hi. apply elem_of_range in Hi.
    destruct (Hin c r i Hc Hr Hi). now apply wf_get. }
  assert (Hall : forall c r, c ∈ cs -> r ∈ rs ->
            (all_of (range 4) (fun i =>
               v <- get b (fr c r i) (fc c r i) ;; Ok (v =? piece)) = Ok true
             <-> forall i, (i < 4)%nat ->
                   get b (fr c r i) (fc c r i) = Ok piece)).
  { intros c r Hc Hr. rewrite all_of_true.
    - split; intros H i Hi.
      + specialize (H i (proj2 (elem_of_range 4 i) Hi)).
        destruct (Hcell c r i Hc Hr (proj2 (elem_of_range 4 i) Hi)) as [v Hv].
        rewrite Hv in H |- *. cbn [bind] in H. injection H as H.
        apply Z.eqb_eq in H. now subst.
      + apply elem_of_range in Hi. rewrite (H i Hi). cbn [bind].
        now rewrite Z.eqb_refl.
    - intros i Hi. destruct (Hcell c r i Hc Hr Hi) as [v ->]. cbn [bind].
      eauto. }
  rewrite any_of_true.
  - split.
    + intros (c & Hc & Hany). rewrite any_of_true in Hany.
      * destruct Hany as (r & Hr & Hw). exists c, r.
        split; [assumption |]. split; [assumption |]. now apply Hall.
      * intros r Hr. apply all_of_ok. intros i Hi.
        destruct (Hcell c r i Hc Hr Hi) as [v ->]. cbn [bind]. eauto.
    + intros (c & r & Hc & Hr & Hw). exists c. split; [assumption |].
      rewrite any_of_true.
      * exists r. split; [assumption |]. now apply Hall.
      * intros r' Hr'. apply all_of_ok. intros i Hi.
        destruct (Hcell c r' i Hc Hr' Hi) as [v ->]. cbn [bind]. eauto.
  - intros c Hc. apply any_of_ok. intros r Hr. apply all_of_ok. intros i Hi.
    destruct (Hcell c r i Hc Hr Hi) as [v ->]. cbn [bind]. eauto.
Qed.

Lemma is_winning_move_line (b : board) (piece : Z) :
  wf_board b ->
  (is_winning_move b piece = Ok true <->
   exists r c,
     ((r < ROW_COUNT)%nat /\ (c + 3 < COLUMN_COUNT)%nat /\
      forall i, (i < 4)%nat -> get b r (c + i) = Ok piece) \/
     ((r + 3 < ROW_COUNT)%nat /\ (c < COLUMN_COUNT)%nat /\
      forall i, (i < 4)%nat -> get b (r + i) c = Ok piece) \/
     ((r + 3 < ROW_COUNT)%nat /\ (c + 3 < COLUMN_COUNT)%nat /\
      forall i, (i < 4)%nat -> get b (r + i) (c + i) = Ok piece) \/
     ((3 <= r < ROW_COUNT)%nat /\ (c + 3 < COLUMN_COUNT)%nat /\
      forall i, (i < 4)%nat -> get b (r - i) (c + i) = Ok piece)).
Proof.
  intros Hwf.
  pose proof (window_scan_true b piece (range (COLUMN_COUNT - 3))
                (range ROW_COUNT)
                (fun c r i => r) (fun c r i => (c + i)%nat) Hwf) as HH.
  pose proof (window_scan_true b piece (range COLUMN_COUNT)
                (range (ROW_COUNT - 3))
                (fun c r i => (r + i)%nat) (fun c r i => c) Hwf) as HV.
  pose proof (window_scan_true b piece (range (COLUMN_COUNT - 3))
                (range (ROW_COUNT - 3))
                (fun c r i => (r + i)%nat) (fun c r i => (c + i)%nat) Hwf)
    as HP.
  pose proof (window_scan_true b piece (range (COLUMN_COUNT - 3))
                (range_from 3 ROW_COUNT)
                (fun c r i => (r - i)%nat) (fun c r i => (c + i)%nat) Hwf)
    as HN.
  cbv beta in HH, HV, HP, HN.
  match type of HH with ?P -> _ => assert (H1 : P) end.
  { intros c r i Hc Hr Hi. apply elem_of_range in Hc, Hr.
    unfold ROW_COUNT, COLUMN_COUNT in *. simpl in Hc. lia. }
  match type of HV with ?P -> _ => assert (H2 : P) end.
  { intros c r i Hc Hr Hi. apply elem_of_range in Hc, Hr.
    unfold ROW_COUNT, COLUMN_COUNT in *. simpl in Hr. lia. }
  match type of HP with ?P -> _ => assert (H3 : P) end.
  { intros c r i Hc Hr Hi. apply elem_of_range in Hc, Hr.
    unfold ROW_COUNT, COLUMN_COUNT in *. simpl in Hc, Hr. lia. }
  match type of HN with ?P -> _ => assert (H4 : P) end.
  { intros c r i Hc Hr Hi. apply elem_of_range in Hc.
    apply elem_of_range_from in Hr.
    unfold ROW_COUNT, COLUMN_COUNT in *. simpl in Hc. lia. }
  specialize (HH H1). specialize (HV H2). specialize (HP H3).
  specialize (HN H4). clear H1 H2 H3 H4.
  destruct (window_scan_ok b piece (range (COLUMN_COUNT - 3)) (range ROW_COUNT)
              (fun c r i => r) (fun c r i => (c + i)%nat) Hwf) as [h Hh].
  { intros c r i Hc Hr Hi. apply elem_of_range in Hc, Hr.
    unfold ROW_COUNT, COLUMN_COUNT in *. simpl in Hc. lia. }
  destruct (window_scan_ok b piece (range COLUMN_COUNT) (range (ROW_COUNT - 3))
              (fun c r i => (r + i)%nat) (fun c r i => c) Hwf) as [v Hv].
  { intros c r i Hc Hr Hi. apply elem_of_range in Hc, Hr.
    unfold ROW_COUNT, COLUMN_COUNT in *. simpl in Hr. lia. }
  destruct (window_scan_ok b piece (range (COLUMN_COUNT - 3))
              (range (ROW_COUNT - 3))
              (fun c r i => (r + i)%nat) (fun c r i => (c + i)%nat) Hwf)
    as [p Hp].
  { intros c r i Hc Hr Hi. apply elem_of_range in Hc, Hr.
    unfold ROW_COUNT, COLUMN_COUNT in *. simpl in Hc, Hr. lia. }
  destruct (window_scan_ok b piece (range (COLUMN_COUNT - 3))
              (range_from 3 ROW_COUNT)
              (fun c r i => (r - i)%nat) (fun c r i => (c + i)%nat) Hwf)
    as [n Hn].
  { intros c r i Hc Hr Hi. apply elem_of_range in Hc.
    apply elem_of_range_from in Hr.
    unfold ROW_COUNT, COLUMN_COUNT in *. simpl in Hc. lia. }
  cbv beta in Hh, Hv, Hp, Hn.
  assert (Hres : is_winning_move b piece = Ok (h || v || p || n)).
  { unfold is_winning_move. rewrite Hh. cbn [bind].
    destruct h; [reflexivity |]. rewrite Hv. cbn [bind].
    destruct v; [reflexivity |]. rewrite Hp. cbn [bind].
    destruct p; [reflexivity |]. rewrite Hn. cbn [bind].
    destruct n; reflexivity. }
  rewrite Hres. rewrite Hh in HH. rewrite Hv in HV. rewrite Hp in HP.
  rewrite Hn in HN.
  split.
  - intros Htrue. injection Htrue as Htrue.
    apply orb_true_iff in Htrue as [Htrue | Hn1].
    1: apply orb_true_iff in Htrue as [Htrue | Hp1].
    1: apply orb_true_iff in Htrue as [Hh1 | Hv1].
    + subst h. destruct (proj1 HH eq_refl) as (c & r & Hc & Hr & Hw).
      apply elem_of_range in Hc, Hr. exists r, c. left.
      unfold COLUMN_COUNT in *. simpl in Hc. split; [assumption |].
      split; [lia | assumption].
    + subst v. destruct (proj1 HV eq_refl) as (c & r & Hc & Hr & Hw).
      apply elem_of_range in Hc, Hr. exists r, c. right. left.
      unfold ROW_COUNT in *. simpl in Hr. split; [lia |].
      split; [assumption | assumption].
    + subst p. destruct (proj1 HP eq_refl) as (c & r & Hc & Hr & Hw).
      apply elem_of_range in Hc, Hr. exists r, c. right. right. left.
      unfold ROW_COUNT, COLUMN_COUNT in *. simpl in Hc, Hr.
      split; [lia |]. split; [lia | assumption].
    + subst n. destruct (proj1 HN eq_refl) as (c & r & Hc & Hr & Hw).
      apply elem_of_range in Hc. apply elem_of_range_from in Hr.
      exists r, c. right. right. right.
      unfold COLUMN_COUNT in *. simpl in Hc.
      split; [assumption |]. split; [lia | assumption].
  - intros (r & c & [(Hr & Hc & Hw) | [(Hr & Hc & Hw) | [(Hr & Hc & Hw)
                     | (Hr & Hc & Hw)]]]).
    + assert (Ht : Ok h = Ok true).
      { apply HH. exists c, r. rewrite !elem_of_range.
        unfold COLUMN_COUNT in *. simpl. split; [lia |]. auto. }
      injection Ht as ->. reflexivity.
    + assert (Ht : Ok v = Ok true).
      { apply HV. exists c, r. rewrite !elem_of_range.
        unfold ROW_COUNT in *. simpl. split; [lia |]. split; [lia |]. auto. }
      injection Ht as ->. now rewrite orb_true_r.
    + assert (Ht : Ok p = Ok true).
      { apply HP. exists c, r. rewrite !elem_of_range.
        unfold ROW_COUNT, COLUMN_COUNT in *. simpl.
        split; [lia |]. split; [lia |]. auto. }
      injection Ht as ->. now rewrite !orb_true_r.
    + assert (Ht : Ok n = Ok true).
      { apply HN. exists c, r. rewrite elem_of_range, elem_of_range_from.
        unfold COLUMN_COUNT in *. simpl.
        split; [lia |]. split; [lia |]. auto. }
      injection Ht as ->. now rewrite !orb_true_r.
Qed.

(** X6. [is_winning_move] answers True exactly when four cells in a line
    all hold the piece: four in one row, four in one column, four on a
    rising diagonal or four on a falling diagonal, the line lying on the
    board. *)
Theorem is_winning_move_iff (b : board) (piece : Z) :
  wf_board b ->
  (is_winning_move b piece = Ok true <->
   exists r c,
     ((r < ROW_COUNT)%nat /\ (c + 3 < COLUMN_COUNT)%nat /\
      forall i, (i < 4)%nat -> get b r (c + i) = Ok piece) \/
     ((r + 3 < ROW_COUNT)%nat /\ (c < COLUMN_COUNT)%nat /\
      forall i, (i < 4)%nat -> get b (r + i) c = Ok piece) \/
     ((r + 3 < ROW_COUNT)%nat /\ (c + 3 < COLUMN_COUNT)%nat /\
      forall i, (i < 4)%nat -> get b (r + i) (c + i) = Ok piece) \/
     ((3 <= r < ROW_COUNT)%nat /\ (c + 3 < COLUMN_COUNT)%nat /\
      forall i, (i < 4)%nat -> get b (r - i) (c + i) = Ok piece)).
Proof. apply is_winning_move_line. Qed.

Lemma is_winning_move_iff_witness :
  is_winning_move full_board_ai_four AI_PIECE = Ok true <->
  exists r c,
    ((r < ROW_COUNT)%nat /\ (c + 3 < COLUMN_COUNT)%nat /\
     forall i, (i < 4)%nat ->
       get full_board_ai_four r (c + i) = Ok AI_PIECE) \/
    ((r + 3 < ROW_COUNT)%nat /\ (c < COLUMN_COUNT)%nat /\
     forall i, (i < 4)%nat ->
       get full_board_ai_four (r + i) c = Ok AI_PIECE) \/
    ((r + 3 < ROW_COUNT)%nat /\ (c + 3 < COLUMN_COUNT)%nat /\
     forall i, (i < 4)%nat ->
       get full_board_ai_four (r + i) (c + i) = Ok AI_PIECE) \/
    ((3 <= r < ROW_COUNT)%nat /\ (c + 3 < COLUMN_COUNT)%nat /\
     forall i, (i < 4)%nat ->
       get full_board_ai_four (r - i) (c + i) = Ok AI_PIECE).
Proof.
  apply (is_winning_move_iff full_board_ai_four AI_PIECE).
  split; [reflexivity | repeat constructor].
Defined.

(** ** Bounds on the heuristic and on the search score *)

Lemma count_bounds (l : list Z) (x : Z) :
  0 <= count l x <= Z.of_nat (length l).
Proof.
  induction l as [| y l IH]; simpl; [lia |].
  destruct (y =? x); lia.
Qed.

Lemma evaluate_window_bounds (window : list Z) (piece : Z) :
  -4000 <= evaluate_window window piece <= 100000.
Proof.
  unfold evaluate_window. cbv zeta.
  destruct (count window piece =? 4);
    destruct ((count window piece =? 3) && (count window EMPTY =? 1));
    destruct ((count window piece =? 2) && (count window EMPTY =? 2));
    destruct ((count window
                 (if piece =? PLAYER_PIECE then AI_PIECE else PLAYER_PIECE)
               =? 3) && (count window EMPTY =? 1));
    lia.
Qed.

Lemma for_fold_bounds {A} (xs : list A) (body : Z -> A -> result Z)
    (lo hi : Z) :
  (forall s x s1, x ∈ xs -> body s x = Ok s1 -> s + lo <= s1 <= s + hi) ->
  forall s s', for_fold xs s body = Ok s' ->
    s + Z.of_nat (length xs) * lo <= s' <= s + Z.of_nat (length xs) * hi.
Proof.
  induction xs as [| x xs IH]; intros Hbody s s' Hfold; cbn [for_fold] in Hfold.
  - injection Hfold as <-. simpl. lia.
  - apply bind_ok_inv in Hfold as (s1 & Hs1 & Hrest).
    pose proof (Hbody s x s1 (list_elem_of_here _ _) Hs1) as H1.
    assert (Hbody' : forall s x s1, x ∈ xs -> body s x = Ok s1 ->
                       s + lo <= s1 <= s + hi)
      by (intros; eapply Hbody; eauto; now right).
    pose proof (IH Hbody' s1 s' Hrest) as H2.
    rewrite length_cons, Nat2Z.inj_succ. lia.
Qed.

Lemma col_array_length (b : board) (c : nat) (col : list Z) :
  col_array b c = Ok col -> length col = length b.
Proof.
  revert col. induction b as [| row rest IH]; intros col Hcol; simpl in Hcol.
  - injection Hcol as <-. reflexivity.
  - destruct (row !! c); [| discriminate].
    apply bind_ok_inv in Hcol as (vs & Hvs & Hcol). injection Hcol as <-.
    simpl. f_equal. now apply IH.
Qed.

Lemma score_position_bounds_core (b : board) (piece s : Z) :
  wf_board b -> score_position b piece = Ok s ->
  -276000 <= s <= 6900018 /\ - WIN_SCORE < s < WIN_SCORE.
Proof.
  intros [Hlen _] Hs.
  assert (Hb : -276000 <= s <= 6900018); [| unfold WIN_SCORE; lia].
  unfold score_position in Hs. cbv zeta in Hs.
  apply bind_ok_inv in Hs as (center & Hcenter & Hs).
  apply bind_ok_inv in Hs as (s1 & Hs1 & Hs).
  apply bind_ok_inv in Hs as (s2 & Hs2 & Hs).
  apply bind_ok_inv in Hs as (s3 & Hs3 & Hs).
  injection Hs as <-.
  pose proof (count_bounds center piece) as Hc.
  rewrite (col_array_length _ _ _ Hcenter), Hlen in Hc.
  unfold ROW_COUNT in Hc.
  apply (for_fold_bounds _ _ (4 * -4000) (4 * 100000)) in Hs1.
  2: { intros s x sx _ Hx. apply bind_ok_inv in Hx as (row & _ & Hx).
       apply (for_fold_bounds _ _ (-4000) 100000) in Hx.
       - unfold range, COLUMN_COUNT in Hx. rewrite length_seq in Hx.
         simpl in Hx. lia.
       - intros s0 c s0' _ [= <-].
         pose proof (evaluate_window_bounds
                       (slice row c (c + WINDOW_LENGTH)) piece). lia. }
  apply (for_fold_bounds _ _ (3 * -4000) (3 * 100000)) in Hs2.
  2: { intros s x sx _ Hx. apply bind_ok_inv in Hx as (col & _ & Hx).
       apply (for_fold_bounds _ _ (-4000) 100000) in Hx.
       - unfold range, ROW_COUNT in Hx. rewrite length_seq in Hx.
         simpl in Hx. lia.
       - intros s0 r s0' _ [= <-].
         pose proof (evaluate_window_bounds
                       (slice col r (r + WINDOW_LENGTH)) piece). lia. }
  apply (for_fold_bounds _ _ (4 * (2 * -4000)) (4 * (2 * 100000))) in Hs3.
  2: { intros s x sx _ Hx.
       apply (for_fold_bounds _ _ (2 * -4000) (2 * 100000)) in Hx.
       - unfold range, COLUMN_COUNT in Hx. rewrite length_seq in Hx.
         simpl in Hx. lia.
       - intros s0 c s0' _ Hc0.
         apply bind_ok_inv in Hc0 as (wpos & _ & Hc0).
         apply bind_ok_inv in Hc0 as (wneg & _ & Hc0).
         injection Hc0 as <-.
         pose proof (evaluate_window_bounds wpos piece).
         pose proof (evaluate_window_bounds wneg piece). lia. }
  unfold range, ROW_COUNT, COLUMN_COUNT in Hs1, Hs2, Hs3.
  rewrite length_seq in Hs1, Hs2, Hs3. simpl in Hs1, Hs2, Hs3. lia.
Qed.

(** X7. The heuristic value of a 6 x 7 board lies between -276000 and
    6900018 (69 windows worth -4000 to 100000 each, plus at most 18 for
    the center column), so its size is always below the 10^14 of a win. *)
Theorem score_position_bounds (b : board) (piece s : Z) :
  wf_board b -> score_position b piece = Ok s ->
  -276000 <= s <= 6900018 /\ - WIN_SCORE < s < WIN_SCORE.
Proof. apply score_position_bounds_core. Qed.

Lemma score_position_bounds_witness :
  -276000 <= 0 <= 6900018 /\ - WIN_SCORE < 0 < WIN_SCORE.
Proof.
  apply (score_position_bounds empty_board AI_PIECE 0 wf_empty_board).
  vm_compute. reflexivity.
Defined.

Lemma leaf_score_bounds (b : board) (t : bool) (r : option nat * ext) :
  wf_board b -> leaf_score b t = Ok r ->
  exists z, r = (None, Fin z) /\ - WIN_SCORE <= z <= WIN_SCORE.
Proof.
  intros Hwf. unfold leaf_score. destruct t.
  - destruct (is_winning_move b AI_PIECE) as [[|] | e]; cbn [bind];
      [intros [= <-]; eexists; split; [reflexivity | unfold WIN_SCORE; lia]
      | | discriminate].
    destruct (is_winning_move b PLAYER_PIECE) as [[|] | e]; cbn [bind];
      [ intros [= <-]; eexists; split; [reflexivity | unfold WIN_SCORE; lia]
      | intros [= <-]; eexists; split; [reflexivity | unfold WIN_SCORE; lia]
      | discriminate].
  - destruct (score_position b AI_PIECE) as [s | e] eqn:Hs; cbn [bind];
      [| discriminate].
    intros [= <-]. exists s. split; [reflexivity |].
    pose proof (score_position_bounds_core b AI_PIECE s Hwf Hs). lia.
Qed.

Section ScanInvariant.
(** A property of scores that every recursive call establishes is kept by
    the scan of the columns. *)
Variable rec : board -> ext -> ext -> result (option nat * ext).
Variable good : ext -> Prop.
Hypothesis rec_good :
  forall b a be r, wf_board b -> rec b a be = Ok r -> good (snd r).

Lemma max_scan_good (b : board) (cols : list nat) :
  wf_board b ->
  forall value column alpha beta r,
    good value ->
    max_scan rec b cols value column alpha beta = Ok r -> good (snd r).
Proof.
  intros Hwf. induction cols as [| col rest IH];
    intros value column alpha beta r Hv Hscan; cbn [max_scan] in Hscan.
  - injection Hscan as <-. exact Hv.
  - apply bind_ok_inv in Hscan as (b' & Hdrop & Hscan).
    apply bind_ok_inv in Hscan as (rr & Hrr & Hscan).
    pose proof (rec_good b' alpha beta rr (drop_piece_wf _ _ _ _ Hwf Hdrop) Hrr)
      as Hnew.
    destruct (ext_ltb value (snd rr)); cbv beta iota zeta in Hscan;
      match type of Hscan with
      | (if ?c then _ else _) = _ => destruct c
      end;
      first [ injection Hscan as <-; cbn [snd]; assumption
            | eapply IH; [| exact Hscan]; assumption ].
Qed.

Lemma min_scan_good (b : board) (cols : list nat) :
  wf_board b ->
  forall value column alpha beta r,
    good value ->
    min_scan rec b cols value column alpha beta = Ok r -> good (snd r).
Proof.
  intros Hwf. induction cols as [| col rest IH];
    intros value column alpha beta r Hv Hscan; cbn [min_scan] in Hscan.
  - injection Hscan as <-. exact Hv.
  - apply bind_ok_inv in Hscan as (b' & Hdrop & Hscan).
    apply bind_ok_inv in Hscan as (rr & Hrr & Hscan).
    pose proof (rec_good b' alpha beta rr (drop_piece_wf _ _ _ _ Hwf Hdrop) Hrr)
      as Hnew.
    destruct (ext_ltb (snd rr) value); cbv beta iota zeta in Hscan;
      match type of Hscan with
      | (if ?c then _ else _) = _ => destruct c
      end;
      first [ injection Hscan as <-; cbn [snd]; assumption
            | eapply IH; [| exact Hscan]; assumption ].
Qed.
End ScanInvariant.

Lemma search_score_bounds (depth : nat) :
  forall (b : board) alpha beta maximizing r,
    wf_board b -> search depth b alpha beta maximizing = Ok r ->
    forall z, snd r = Fin z -> - WIN_SCORE <= z <= WIN_SCORE.
Proof.
  induction depth as [| depth IH]; intros b alpha beta maximizing r Hwf Hs;
    cbn [search] in Hs;
    apply bind_ok_inv in Hs as (vs & Hvs & Hs);
    apply bind_ok_inv in Hs as (t & Ht & Hs).
  - destruct (leaf_score_bounds b t r Hwf Hs) as (z0 & -> & Hz0).
    intros z [= <-]. exact Hz0.
  - destruct t.
    { destruct (leaf_score_bounds b true r Hwf Hs) as (z0 & -> & Hz0).
      intros z [= <-]. exact Hz0. }
    destruct maximizing.
    + apply bind_ok_inv in Hs as (column & _ & Hs).
      apply bind_ok_inv in Hs as (r' & Hscan & Hs). injection Hs as <-.
      cbn [snd].
      apply (max_scan_good (fun b' a be => search depth b' a be false)
               (fun v => forall z, v = Fin z -> - WIN_SCORE <= z <= WIN_SCORE)
               (fun b' a be r Hwf' Hr => IH b' a be false r Hwf' Hr)
               b vs Hwf NegInf column alpha beta r'); [discriminate | exact Hscan].
    + apply bind_ok_inv in Hs as (column & _ & Hs).
      apply bind_ok_inv in Hs as (r' & Hscan & Hs). injection Hs as <-.
      cbn [snd].
      apply (min_scan_good (fun b' a be => search depth b' a be true)
               (fun v => forall z, v = Fin z -> - WIN_SCORE <= z <= WIN_SCORE)
               (fun b' a be r Hwf' Hr => IH b' a be true r Hwf' Hr)
               b vs Hwf PosInf column alpha beta r'); [discriminate | exact Hscan].
Qed.

(** X8. Whatever the depth, the window and the side to move, the score
    [minimax] returns on a 6 x 7 board is an integer between -10^14 and
    10^14: never infinite, and never beyond the scores of a win or loss. *)
Theorem minimax_score_bounds (depth : nat) (l : loc) (b : board)
    (alpha beta : ext) (maximizing : bool) (st : state)
    (column : option nat) (score : ext) :
  heap st !! l = Some b -> wf_board b ->
  run (minimax depth l alpha beta maximizing) st = Ok (column, score) ->
  exists z, score = Fin z /\ - WIN_SCORE <= z <= WIN_SCORE.
Proof.
  intros Hl Hwf Hrun.
  apply (minimax_run_search _ _ _ _ _ _ _ _ Hl) in Hrun.
  destruct (search_fin depth maximizing _ _ _ _ Hrun) as [z Hz].
  exists z. split; [exact Hz |].
  eapply (search_score_bounds depth b alpha beta maximizing _ Hwf Hrun); eauto.
Qed.

Lemma minimax_score_bounds_witness :
  exists z, Fin 11 = Fin z /\ - WIN_SCORE <= z <= WIN_SCORE.
Proof.
  apply (minimax_score_bounds 3 0%nat empty_board NegInf PosInf true
           (init_state empty_board) (Some 3%nat) (Fin 11)
           eq_refl wf_empty_board).
  vm_compute. reflexivity.
Defined.

(** ** The column the search chooses *)

Lemma strongly_sorted_mid (done rest : list nat) (col : nat) :
  StronglySorted lt (done ++ col :: rest) ->
  forall x, x ∈ done -> (x < col)%nat.
Proof.
  induction done as [| y done IH]; intros Hs x Hx; [inversion Hx |].
  simpl in Hs. apply StronglySorted_inv in Hs as [Hs Hy].
  apply elem_of_cons in Hx as [-> | Hx]; [| now apply IH].
  rewrite List.Forall_forall in Hy. apply Hy, in_or_app. right. now left.
Qed.

Lemma first_best_take (value sc : ext) (z : Z) :
  value <> PosInf ->
  ext_ltb value (Fin z) = true ->
  within (ext_max NegInf value) PosInf (Fin z) sc ->
  sc = Fin z /\
  ext_geb (ext_max (ext_max NegInf value) (Fin z)) PosInf = false /\
  ext_max (ext_max NegInf value) (Fin z) = ext_max NegInf (Fin z).
Proof.
  intros Hfin. destruct value; [| | contradiction]; clear Hfin; ext_solve.
Qed.

Lemma first_best_keep (value sc : ext) (z : Z) :
  value <> PosInf ->
  ext_ltb value (Fin z) = false ->
  within (ext_max NegInf value) PosInf (Fin z) sc ->
  ext_ltb value sc = false /\ value <> NegInf /\
  ext_geb (ext_max (ext_max NegInf value) value) PosInf = false /\
  ext_max (ext_max NegInf value) value = ext_max NegInf value.
Proof.
  intros Hfin. destruct value; [| | contradiction]; clear Hfin; ext_solve; discriminate.
Qed.

Lemma first_best_below (value sc : ext) (z : Z) :
  ext_ltb value sc = false -> ext_ltb value (Fin z) = true ->
  ext_ltb (Fin z) sc = false /\ ext_ltb sc (Fin z) = true.
Proof. ext_solve. Qed.

Lemma ext_window_open (value : ext) :
  value <> PosInf -> ext_ltb (ext_max NegInf value) PosInf = true.
Proof. intros Hfin. destruct value; [| | contradiction]; reflexivity. Qed.

Section FirstBest.
Variable depth : nat.
Variable b : board.

(** The scan of the maximizing side, called with beta = +infinity: after
    the columns [done], [value] is the largest plain score among them and
    [column] the first column that has it. *)
Lemma max_scan_first_best (cols : list nat) :
  forall (done : list nat) (value : ext) (column : nat) (r : nat * ext),
    StronglySorted lt (done ++ cols) ->
    value <> PosInf ->
    (done = [] -> value = NegInf) ->
    (forall c, c ∈ done ->
       exists sc, child_score depth b c AI_PIECE false = Ok sc /\
                  ext_ltb value sc = false /\
                  ((c < column)%nat -> ext_ltb sc value = true)) ->
    (done <> [] ->
       column ∈ done /\
       child_score depth b column AI_PIECE false = Ok value) ->
    (forall c, c ∈ cols ->
       exists sc, child_score depth b c AI_PIECE false = Ok sc) ->
    max_scan (fun b' a be => search depth b' a be false)
      b cols value column (ext_max NegInf value) PosInf = Ok r ->
    (forall c, c ∈ done ++ cols ->
       exists sc, child_score depth b c AI_PIECE false = Ok sc /\
                  ext_ltb (snd r) sc = false /\
                  ((c < fst r)%nat -> ext_ltb sc (snd r) = true)) /\
    (done ++ cols <> [] ->
       fst r ∈ done ++ cols /\
       child_score depth b (fst r) AI_PIECE false = Ok (snd r)).
Proof.
  induction cols as [| col rest IH];
    intros done value column r Hsorted Hfin Hstart Hdone Hbest Htotal Hscan.
  - cbn [max_scan] in Hscan. injection Hscan as <-. cbn [fst snd].
    rewrite app_nil_r. split; assumption.
  - cbn [max_scan] in Hscan.
    apply bind_ok_inv in Hscan as (b' & Hdrop & Hscan).
    apply bind_ok_inv in Hscan as (rr & Hrr & Hscan).
    destruct (search_fin depth false _ _ _ _ Hrr) as [z Hz].
    destruct (Htotal col (list_elem_of_here _ _)) as [sc Hsc].
    pose proof Hsc as Hsc'. unfold child_score in Hsc'.
    rewrite Hdrop in Hsc'. cbn [bind] in Hsc'.
    pose proof (search_within depth b' _ PosInf false rr sc
                  (ext_window_open value Hfin) Hrr Hsc') as Hw.
    rewrite Hz in Hw, Hscan.
    pose proof (strongly_sorted_mid done rest col Hsorted) as Hlt.
    assert (Hsorted' : StronglySorted lt ((done ++ [col]) ++ rest))
      by now rewrite <- app_assoc.
    assert (Htotal' : forall c, c ∈ rest ->
              exists sc, child_score depth b c AI_PIECE false = Ok sc)
      by (intros; apply Htotal; now right).
    assert (Happ : forall c, c ∈ done ++ col :: rest <->
                             c ∈ (done ++ [col]) ++ rest)
      by (intros; now rewrite <- app_assoc).
    assert (Hne : done ++ [col] <> []) by (destruct done; discriminate).
    destruct (ext_ltb value (Fin z)) eqn:Hcmp; cbv beta iota zeta in Hscan.
    + destruct (first_best_take value sc z Hfin Hcmp Hw) as (-> & Hge & Halpha).
      rewrite Hge, Halpha in Hscan.
      destruct (IH (done ++ [col]) (Fin z) col r Hsorted') as [H1 H2];
        try assumption; try discriminate.
      * intros Hnil. contradiction.
      * intros c Hc. apply elem_of_app in Hc as [Hc | Hc].
        -- destruct (Hdone c Hc) as (sc0 & Hsc0 & Hle & _).
           exists sc0. split; [assumption |].
           destruct (first_best_below value sc0 z Hle Hcmp). auto.
        -- apply list_elem_of_singleton in Hc as ->.
           exists (Fin z). split; [assumption |].
           split; [apply ext_ltb_irrefl | lia].
      * intros _. split; [apply elem_of_app; right; left | assumption].
      * split.
        -- intros c Hc. apply H1, Happ, Hc.
        -- intros _. destruct (H2 ltac:(destruct done; discriminate)) as [Ha Hb].
           split; [apply Happ, Ha | exact Hb].
    + destruct (first_best_keep value sc z Hfin Hcmp Hw)
        as (Hle & Hnotneg & Hge & Halpha).
      rewrite Hge, Halpha in Hscan.
      assert (Hdne : done <> []) by (intros Hnil; auto).
      destruct (Hbest Hdne) as [Hcolumn Hvalue].
      destruct (IH (done ++ [col]) value column r Hsorted') as [H1 H2];
        try assumption.
      * intros Hnil. contradiction.
      * intros c Hc. apply elem_of_app in Hc as [Hc | Hc]; [now apply Hdone |].
        apply list_elem_of_singleton in Hc as ->.
        exists sc. split; [assumption |]. split; [assumption |].
        intros Hbefore. specialize (Hlt column Hcolumn). lia.
      * intros _. split; [apply elem_of_app; now left | assumption].
      * split.
        -- intros c Hc. apply H1, Happ, Hc.
        -- intros _. destruct (H2 ltac:(destruct done; discriminate)) as [Ha Hb].
           split; [apply Happ, Ha | exact Hb].
Qed.
End FirstBest.

(** X9. Called as the shell calls it (full window, maximizing side) on a
    board that is not terminal, [minimax] returns the lowest valid column
    whose child position has the largest plain minimax score, together
    with that score: no valid column scores more, and every valid column
    before the returned one scores strictly less. *)
Theorem minimax_picks_first_best (depth : nat) (l : loc) (b : board)
    (st : state) (vs : list nat) :
  heap st !! l = Some b -> wf_board b ->
  is_terminal_node b = Ok false ->
  get_valid_locations b = Ok vs ->
  exists col score,
    run (minimax (S depth) l NegInf PosInf true) st = Ok (Some col, score) /\
    col ∈ vs /\
    child_score depth b col AI_PIECE false = Ok score /\
    forall c, c ∈ vs ->
      exists sc, child_score depth b c AI_PIECE false = Ok sc /\
                 ext_ltb score sc = false /\
                 ((c < col)%nat -> ext_ltb sc score = true).
Proof.
  intros Hl Hwf Ht Hvs.
  destruct (minimax_returns (S depth) l b NegInf PosInf true st Hl Hwf)
    as (r & st' & Hs & Hm & _).
  destruct (wf_nonterminal_valid b vs Hwf Ht Hvs) as (c0 & rest & Heq).
  pose proof Hs as Hs'. cbn [search] in Hs'. rewrite Hvs, Ht in Hs'.
  cbn [bind] in Hs'.
  apply bind_ok_inv in Hs' as (seed & _ & Hs').
  apply bind_ok_inv in Hs' as (r' & Hscan & Hs'). injection Hs' as <-.
  destruct (max_scan_first_best depth b vs [] NegInf seed r') as [H1 H2].
  - simpl. apply (get_valid_locations_sorted_open_core b vs Hwf Hvs).
  - discriminate.
  - reflexivity.
  - intros c Hc. inversion Hc.
  - intros Hne. contradiction.
  - intros c Hc. unfold child_score.
    destruct (drop_piece_ok b c AI_PIECE Hwf)
      as (row & b' & _ & -> & Hwf' & _);
      [eapply valid_location_open; eauto |].
    cbn [bind]. apply plain_minimax_total, Hwf'.
  - exact Hscan.
  - simpl in H1, H2.
    destruct H2 as [Hin Hscore]; [rewrite Heq; discriminate |].
    exists (fst r'), (snd r').
    split; [eapply run_ok, Hm |]. auto.
Qed.

Lemma minimax_picks_first_best_witness :
  exists col score,
    run (minimax 2 0%nat NegInf PosInf true) (init_state empty_board)
    = Ok (Some col, score) /\
    col ∈ [0; 1; 2; 3; 4; 5; 6]%nat /\
    child_score 1 empty_board col AI_PIECE false = Ok score /\
    forall c, c ∈ [0; 1; 2; 3; 4; 5; 6]%nat ->
      exists sc, child_score 1 empty_board c AI_PIECE false = Ok sc /\
                 ext_ltb score sc = false /\
                 ((c < col)%nat -> ext_ltb sc score = true).
Proof.
  apply (minimax_picks_first_best 1 0%nat empty_board (init_state empty_board)
           [0; 1; 2; 3; 4; 5; 6]%nat eq_refl wf_empty_board).
  - vm_compute. reflexivity.
  - vm_compute. reflexivity.
Defined.

(** ** Searching deeper than the board has empty cells *)

Lemma count_insert_empty (row : list Z) (c : nat) (v : Z) :
  row !! c = Some EMPTY -> v <> EMPTY ->
  count (<[c := v]> row) EMPTY = count row EMPTY - 1.
Proof.
  revert c. induction row as [| y row IH]; intros c Hc Hv; [discriminate |].
  destruct c as [| c]; simpl in *.
  - injection Hc as ->. destruct (Z.eqb_spec v EMPTY); [contradiction |].
    rewrite Z.eqb_refl. lia.
  - rewrite (IH c Hc Hv). lia.
Qed.

Lemma empties_insert (b : board) (r : nat) (cells cells' : list Z) :
  b !! r = Some cells ->
  empties (<[r := cells']> b)
  = empties b - count cells EMPTY + count cells' EMPTY.
Proof.
  revert r. induction b as [| row b IH]; intros r Hr; [discriminate |].
  destruct r as [| r]; simpl in *.
  - injection Hr as ->. lia.
  - rewrite (IH r Hr). lia.
Qed.

Lemma empties_nonneg (b : board) : 0 <= empties b.
Proof.
  induction b as [| row b IH]; simpl; [lia |].
  pose proof (count_bounds row EMPTY). lia.
Qed.

Lemma count_lookup_empty (row : list Z) (c : nat) :
  row !! c = Some EMPTY -> 1 <= count row EMPTY.
Proof.
  revert c. induction row as [| y row IH]; intros c Hc; [discriminate |].
  destruct c as [| c]; simpl in *.
  - injection Hc as ->. rewrite Z.eqb_refl.
    pose proof (count_bounds row EMPTY). lia.
  - specialize (IH c Hc). destruct (y =? EMPTY); lia.
Qed.

Lemma empties_lookup (b : board) (r c : nat) :
  get b r c = Ok EMPTY -> 1 <= empties b.
Proof.
  unfold get. destruct (b !! r) as [cells |] eqn:Hcells; [| discriminate].
  destruct (cells !! c) as [v |] eqn:Hv; [| discriminate].
  intros [= ->]. pose proof (count_lookup_empty cells c Hv) as Hc.
  pose proof (empties_insert b r cells [] Hcells) as Hi. simpl in Hi.
  pose proof (empties_nonneg (<[r := []]> b)). lia.
Qed.

Lemma drop_piece_empties (b b' : board) (col : nat) (piece : Z) :
  wf_board b -> is_valid_location b col = Ok true -> piece <> EMPTY ->
  drop_piece b col piece = Ok b' ->
  empties b' = empties b - 1.
Proof.
  intros Hwf Hopen Hpiece Hdrop.
  destruct (get_next_open_row_valid b col Hwf Hopen)
    as (r & Hrow & Hr & Hc & Hempty).
  unfold drop_piece in Hdrop. rewrite Hrow in Hdrop. cbn [bind] in Hdrop.
  unfold setitem in Hdrop. unfold get in Hempty.
  destruct (b !! r) as [cells |] eqn:Hcells; [| discriminate].
  destruct (cells !! col) as [v |] eqn:Hv; [| discriminate].
  injection Hempty as ->.
  destruct (col <? length cells)%nat; [| discriminate].
  injection Hdrop as <-.
  rewrite (empties_insert b r cells _ Hcells).
  rewrite (count_insert_empty cells col piece Hv Hpiece). lia.
Qed.

Lemma no_empty_terminal (b : board) :
  wf_board b -> empties b <= 0 -> is_terminal_node b = Ok true.
Proof.
  intros Hwf Hz.
  destruct (is_terminal_node_ok b Hwf) as [t Ht].
  destruct t; [exact Ht |].
  destruct (wf_nonterminal_valid b _ Hwf Ht (get_valid_locations_eq b Hwf))
    as (c & rest & Heq).
  assert (Hopen : is_valid_location b c = Ok true).
  { eapply valid_location_open; eauto using get_valid_locations_eq.
    rewrite Heq. left. }
  destruct (get_next_open_row_valid b c Hwf Hopen) as (r & _ & _ & _ & He).
  pose proof (empties_lookup b r c He). lia.
Qed.

Section ScanExt.
Variable rec1 rec2 : board -> ext -> ext -> result (option nat * ext).

Lemma max_scan_ext (b : board) (cols : list nat) :
  (forall c b', c ∈ cols -> drop_piece b c AI_PIECE = Ok b' ->
     forall a be, rec1 b' a be = rec2 b' a be) ->
  forall value column alpha beta,
    max_scan rec1 b cols value column alpha beta
    = max_scan rec2 b cols value column alpha beta.
Proof.
  induction cols as [| col rest IH]; intros Hrec value column alpha beta;
    cbn [max_scan]; [reflexivity |].
  destruct (drop_piece b col AI_PIECE) as [b' | e] eqn:Hdrop; [| reflexivity].
  cbn [bind]. rewrite (Hrec col b' (list_elem_of_here _ _) Hdrop).
  destruct (rec2 b' alpha beta) as [rr | e]; [| reflexivity]. cbn [bind].
  assert (Hrec' : forall c b', c ∈ rest -> drop_piece b c AI_PIECE = Ok b' ->
            forall a be, rec1 b' a be = rec2 b' a be)
    by (intros; eapply Hrec; eauto; now right).
  destruct (ext_ltb value (snd rr)); cbv zeta;
    (destruct (ext_geb _ beta); [reflexivity | now apply IH]).
Qed.

Lemma min_scan_ext (b : board) (cols : list nat) :
  (forall c b', c ∈ cols -> drop_piece b c PLAYER_PIECE = Ok b' ->
     forall a be, rec1 b' a be = rec2 b' a be) ->
  forall value column alpha beta,
    min_scan rec1 b cols value column alpha beta
    = min_scan rec2 b cols value column alpha beta.
Proof.
  induction cols as [| col rest IH]; intros Hrec value column alpha beta;
    cbn [min_scan]; [reflexivity |].
  destruct (drop_piece b col PLAYER_PIECE) as [b' | e] eqn:Hdrop;
    [| reflexivity].
  cbn [bind]. rewrite (Hrec col b' (list_elem_of_here _ _) Hdrop).
  destruct (rec2 b' alpha beta) as [rr | e]; [| reflexivity]. cbn [bind].
  assert (Hrec' : forall c b', c ∈ rest ->
            drop_piece b c PLAYER_PIECE = Ok b' ->
            forall a be, rec1 b' a be = rec2 b' a be)
    by (intros; eapply Hrec; eauto; now right).
  destruct (ext_ltb (snd rr) value); cbv zeta;
    (destruct (ext_geb alpha _); [reflexivity | now apply IH]).
Qed.
End ScanExt.

Lemma search_terminal_any_depth (d1 d2 : nat) (b : board) alpha beta
    maximizing :
  is_terminal_node b = Ok true ->
  search d1 b alpha beta maximizing = search d2 b alpha beta maximizing.
Proof.
  intros Ht. destruct d1, d2; cbn [search]; rewrite Ht;
    destruct (get_valid_locations b); reflexivity.
Qed.

Lemma search_saturates (d1 : nat) :
  forall (d2 : nat) (b : board) alpha beta maximizing,
    wf_board b ->
    empties b <= Z.of_nat d1 -> empties b <= Z.of_nat d2 ->
    search d1 b alpha beta maximizing = search d2 b alpha beta maximizing.
Proof.
  induction d1 as [| d1 IH]; intros d2 b alpha beta maximizing Hwf H1 H2.
  - apply search_terminal_any_depth, no_empty_terminal; [assumption | lia].
  - destruct d2 as [| d2].
    { apply search_terminal_any_depth, no_empty_terminal; [assumption | lia]. }
    cbn [search]. pose proof (get_valid_locations_eq b Hwf) as Hvs.
    rewrite Hvs. cbn [bind].
    destruct (is_terminal_node b) as [[|] | e]; cbn [bind]; try reflexivity.
    assert (Hchild : forall piece c b', piece <> EMPTY ->
              c ∈ List.filter (is_open b) (range COLUMN_COUNT) ->
              drop_piece b c piece = Ok b' ->
              forall m a be, search d1 b' a be m = search d2 b' a be m).
    { intros piece c b' Hpiece Hc Hdrop m a be.
      pose proof (valid_location_open b _ c Hwf Hvs Hc) as Hopen.
      pose proof (drop_piece_empties b b' c piece Hwf Hopen Hpiece Hdrop).
      apply IH; [eapply drop_piece_wf; eauto | lia | lia]. }
    destruct maximizing.
    + destruct (first_choice _) as [seed | e]; [| reflexivity]. cbn [bind].
      rewrite (max_scan_ext (fun b' a be => search d1 b' a be false)
                 (fun b' a be => search d2 b' a be false)); [reflexivity |].
      intros c b' Hc Hdrop a be.
      apply (Hchild AI_PIECE c b'); [discriminate | assumption | assumption].
    + destruct (first_choice _) as [seed | e]; [| reflexivity]. cbn [bind].
      rewrite (min_scan_ext (fun b' a be => search d1 b' a be true)
                 (fun b' a be => search d2 b' a be true)); [reflexivity |].
      intros c b' Hc Hdrop a be.
      apply (Hchild PLAYER_PIECE c b'); [discriminate | assumption | assumption].
Qed.

Lemma empties_at_most (b : board) :
  wf_board b -> empties b <= 42.
Proof.
  intros [Hlen Hrows].
  assert (H : empties b <= Z.of_nat (length b) * 7).
  { clear Hlen. induction Hrows as [| row rest Hrow _ IH]; simpl; [lia |].
    pose proof (count_bounds row EMPTY) as Hc. rewrite Hrow in Hc.
    unfold COLUMN_COUNT in Hc. lia. }
  rewrite Hlen in H. unfold ROW_COUNT in H. lia.
Qed.

(** X10. Once the depth is at least the number of empty cells of the
    board, searching deeper changes nothing: [minimax] returns the same
    column and score at any two such depths. In particular every depth of
    42 or more gives the result of depth 42. *)
Theorem minimax_depth_saturates (d1 d2 : nat) (l : loc) (b : board)
    (alpha beta : ext) (maximizing : bool) (st : state) :
  heap st !! l = Some b -> wf_board b ->
  empties b <= Z.of_nat d1 -> empties b <= Z.of_nat d2 ->
  run (minimax d1 l alpha beta maximizing) st
  = run (minimax d2 l alpha beta maximizing) st /\
  ((42 <= d1)%nat ->
   run (minimax d1 l alpha beta maximizing) st
   = run (minimax 42 l alpha beta maximizing) st).
Proof.
  intros Hl Hwf H1 H2.
  assert (Heq : forall d d', empties b <= Z.of_nat d ->
            empties b <= Z.of_nat d' ->
            run (minimax d l alpha beta maximizing) st
            = run (minimax d' l alpha beta maximizing) st).
  { intros d d' Hd Hd'.
    destruct (minimax_returns d l b alpha beta maximizing st Hl Hwf)
      as (r & st1 & Hs & Hm & _).
    destruct (minimax_returns d' l b alpha beta maximizing st Hl Hwf)
      as (r' & st2 & Hs' & Hm' & _).
    rewrite (run_ok _ _ _ _ Hm), (run_ok _ _ _ _ Hm').
    rewrite (search_saturates d d' b alpha beta maximizing Hwf Hd Hd') in Hs.
    congruence. }
  split; [now apply Heq |].
  intros Hdeep. pose proof (empties_at_most b Hwf). apply Heq; lia.
Qed.

Lemma minimax_depth_saturates_witness :
  run (minimax 2 0%nat NegInf PosInf true) (init_state two_empty_board)
  = run (minimax 7 0%nat NegInf PosInf true) (init_state two_empty_board) /\
  run (minimax 2 0%nat NegInf PosInf true) (init_state two_empty_board)
  = Ok (Some 1%nat, Fin 0) /\
  run (minimax 1 0%nat NegInf PosInf true) (init_state two_empty_board)
  = Ok (Some 3%nat, Fin 9).
Proof.
  assert (Hwf : wf_board two_empty_board).
  { split; [reflexivity |].
    repeat apply Forall_cons_2; try apply Forall_nil_2; reflexivity. }
  assert (H2 : empties two_empty_board <= Z.of_nat 2)
    by (vm_compute; discriminate).
  assert (H7 : empties two_empty_board <= Z.of_nat 7)
    by (vm_compute; discriminate).
  split.
  - exact (proj1 (minimax_depth_saturates 2 7 0%nat two_empty_board
                    NegInf PosInf true (init_state two_empty_board)
                    eq_refl Hwf H2 H7)).
  - split; vm_compute; reflexivity.
Defined.

(** * The shell *)

Lemma mbind_ok {A B} (m : M A) (k : A -> M B) (st st' : state) (a : A) :
  m st = Ok (a, st') -> mbind m k st = k a st'.
Proof. unfold mbind. now intros ->. Qed.

Lemma load_ok (l : loc) (b : board) (st : state) :
  heap st !! l = Some b -> load l st = Ok (b, st).
Proof. unfold load. now intros ->. Qed.

Lemma lift_ok {A} (m : result A) (a : A) (st : state) :
  m = Ok a -> lift m st = Ok (a, st).
Proof. unfold lift. now intros ->. Qed.

Lemma place_piece_drop (l : loc) (b : board) (col : nat) (piece : Z)
    (st : state) :
  heap st !! l = Some b ->
  match drop_piece b col piece with
  | Ok b' =>
      place_piece l col piece st
      = Ok (tt, mkState (<[l := b']> (heap st)) (rng st))
  | Raise e => place_piece l col piece st = Raise e
  end.
Proof.
  intros Hl. unfold place_piece, drop_piece, mbind, load, lift, store.
  rewrite Hl.
  destruct (get_next_open_row b col) as [row | e]; cbn [bind]; [| reflexivity].
  rewrite Hl. destruct (setitem b row col piece); reflexivity.
Qed.

Lemma player_move_callback_effect_core (col : nat) (ss : session) (b : board)
    (st : state) :
  heap st !! s_board ss = Some b -> wf_board b ->
  (col < COLUMN_COUNT)%nat ->
  if (s_turn ss =? PLAYER_PIECE) && is_open b col then
    exists b',
      drop_piece b col PLAYER_PIECE = Ok b' /\
      player_move_callback col ss st
      = Ok (set_turn ss AI_PIECE,
            mkState (<[s_board ss := b']> (heap st)) (rng st))
  else player_move_callback col ss st = Ok (ss, st).
Proof.
  intros Hl Hwf Hcol. unfold player_move_callback.
  destruct (s_turn ss =? PLAYER_PIECE); cbn [andb]; [| reflexivity].
  destruct (is_valid_location_ok b col Hwf Hcol) as [ok Hok].
  unfold is_open. rewrite Hok.
  rewrite (mbind_ok _ _ _ _ _ (load_ok _ _ _ Hl)).
  rewrite (mbind_ok _ _ _ _ _ (lift_ok _ _ st Hok)).
  destruct ok; [| reflexivity].
  destruct (drop_piece_ok b col PLAYER_PIECE Hwf Hok)
    as (row & b' & _ & Hdrop & _).
  exists b'. split; [exact Hdrop |].
  pose proof (place_piece_drop (s_board ss) b col PLAYER_PIECE st Hl) as Hp.
  rewrite Hdrop in Hp. rewrite (mbind_ok _ _ _ _ _ Hp). reflexivity.
Qed.

(** X11. The column button of the shell: when it is the player's turn and
    the column is open, the click puts the player's piece on the session's
    board, in place, where [drop_piece] puts it, and passes the turn to
    the AI; otherwise (not the player's turn, or the column is full) it
    changes nothing. The game-over flag is not consulted. *)
Theorem player_move_callback_effect (col : nat) (ss : session) (b : board)
    (st : state) :
  heap st !! s_board ss = Some b -> wf_board b ->
  (col < COLUMN_COUNT)%nat ->
  if (s_turn ss =? PLAYER_PIECE) && is_open b col then
    exists b',
      drop_piece b col PLAYER_PIECE = Ok b' /\
      player_move_callback col ss st
      = Ok (set_turn ss AI_PIECE,
            mkState (<[s_board ss := b']> (heap st)) (rng st))
  else player_move_callback col ss st = Ok (ss, st).
Proof. apply player_move_callback_effect_core. Qed.

Lemma player_move_callback_effect_witness :
  exists b',
    drop_piece empty_board 3 PLAYER_PIECE = Ok b' /\
    player_move_callback 3 new_session (init_state empty_board)
    = Ok (set_turn new_session AI_PIECE,
          mkState (<[0%nat := b']> [empty_board]) (fun _ => 0%nat)).
Proof.
  apply (player_move_callback_effect 3 new_session empty_board
           (init_state empty_board) eq_refl wf_empty_board).
  unfold COLUMN_COUNT. lia.
Defined.

Lemma check_game_state_terminal_core (l : loc) (ss : session) (b : board)
    (st : state) :
  heap st !! l = Some b -> wf_board b ->
  exists t wp wa,
    is_terminal_node b = Ok t /\
    is_winning_move b PLAYER_PIECE = Ok wp /\
    is_winning_move b AI_PIECE = Ok wa /\
    check_game_state l ss st
    = Ok ((if t then
             set_over ss (if wp then PLAYER_PIECE
                          else if wa then AI_PIECE else EMPTY)
           else ss), st).
Proof.
  intros Hl Hwf.
  destruct (is_terminal_node_ok b Hwf) as [t Ht].
  destruct (is_terminal_node_spec b t Hwf Ht)
    as (wp & wa & vs & Hwp & Hwa & Hvs & Heq).
  exists t, wp, wa. repeat (split; [assumption |]).
  unfold check_game_state.
  rewrite (mbind_ok _ _ _ _ _ (load_ok _ _ _ Hl)).
  rewrite (mbind_ok _ _ _ _ _ (lift_ok _ _ st Hwp)).
  destruct wp; [subst t; reflexivity |].
  rewrite (mbind_ok _ _ _ _ _ (lift_ok _ _ st Hwa)).
  destruct wa; [subst t; reflexivity |].
  rewrite (mbind_ok _ _ _ _ _ (lift_ok _ _ st Hvs)).
  subst t. cbn [orb].
  destruct (Nat.eqb (length vs) 0); reflexivity.
Qed.

(** X12. [check_game_state] declares the game over exactly on the boards
    [is_terminal_node] calls terminal; it reports the player's
    four-in-a-row before the AI's, and a draw otherwise. On any other
    board it changes nothing, and it never touches the board or the
    turn. *)
Theorem check_game_state_terminal (l : loc) (ss : session) (b : board)
    (st : state) :
  heap st !! l = Some b -> wf_board b ->
  exists t wp wa,
    is_terminal_node b = Ok t /\
    is_winning_move b PLAYER_PIECE = Ok wp /\
    is_winning_move b AI_PIECE = Ok wa /\
    check_game_state l ss st
    = Ok ((if t then
             set_over ss (if wp then PLAYER_PIECE
                          else if wa then AI_PIECE else EMPTY)
           else ss), st).
Proof. apply check_game_state_terminal_core. Qed.

Lemma check_game_state_terminal_witness :
  check_game_state 0%nat new_session (init_state full_board_ai_four)
  = Ok (set_over new_session AI_PIECE, init_state full_board_ai_four).
Proof.
  destruct (check_game_state_terminal 0%nat new_session full_board_ai_four
              (init_state full_board_ai_four) eq_refl)
    as (t & wp & wa & Ht & Hwp & Hwa & Hc).
  - split; [reflexivity | repeat constructor].
  - vm_compute in Ht, Hwp, Hwa.
    injection Ht as <-. injection Hwp as <-. injection Hwa as <-.
    exact Hc.
Defined.

Lemma ai_turn_logic_moves_core (ss : session) (b : board) (st : state) :
  heap st !! s_board ss = Some b -> wf_board b ->
  is_terminal_node b = Ok false ->
  exists col score b' st',
    search SEARCH_DEPTH b NegInf PosInf true = Ok (Some col, score) /\
    is_valid_location b col = Ok true /\
    drop_piece b col AI_PIECE = Ok b' /\
    ai_turn_logic ss st = Ok ((set_turn ss PLAYER_PIECE, true), st') /\
    heap st' !! s_board ss = Some b'.
Proof.
  intros Hl Hwf Ht.
  destruct (minimax_returns SEARCH_DEPTH (s_board ss) b NegInf PosInf true st
              Hl Hwf) as (r & st1 & Hs & Hm & Hpres).
  pose proof (get_valid_locations_eq b Hwf) as Hvs.
  pose proof Hs as Hs'. unfold SEARCH_DEPTH in Hs'.
  destruct (search_node _ b NegInf PosInf true _ r
              (search_fin _ (negb true)) Hvs Ht Hs')
    as (col & z & -> & Hin).
  pose proof (valid_location_open b _ col Hwf Hvs Hin) as Hopen.
  destruct (drop_piece_ok b col AI_PIECE Hwf Hopen)
    as (row & b' & _ & Hdrop & _).
  pose proof (Hpres _ _ Hl) as Hl1.
  exists col, (Fin z), b', (mkState (<[s_board ss := b']> (heap st1)) (rng st1)).
  split; [exact Hs |]. split; [exact Hopen |]. split; [exact Hdrop |].
  split.
  - unfold ai_turn_logic. unfold SEARCH_DEPTH in Hm |- *.
    rewrite (mbind_ok _ _ _ _ _ Hm). cbn [fst].
    rewrite (mbind_ok _ _ _ _ _ (load_ok _ _ _ Hl1)).
    rewrite (mbind_ok _ _ _ _ _ (lift_ok _ _ st1 Hopen)).
    pose proof (place_piece_drop (s_board ss) b col AI_PIECE st1 Hl1) as Hp.
    rewrite Hdrop in Hp. rewrite (mbind_ok _ _ _ _ _ Hp). reflexivity.
  - cbn [heap]. apply list_lookup_insert_eq.
    apply lookup_lt_Some in Hl1. exact Hl1.
Qed.

(** X13. The AI's turn on a board that is not terminal: the shell always
    takes the move branch. It puts the AI's piece, in place on the
    session's board, into the column the depth-4 search returns, passes
    the turn to the player and asks for a rerun; the fallback branch for
    an invalid column is never taken, and the game-over flag and the
    winner are left as they were. *)
Theorem ai_turn_logic_moves (ss : session) (b : board) (st : state) :
  heap st !! s_board ss = Some b -> wf_board b ->
  is_terminal_node b = Ok false ->
  exists col score b' st',
    search SEARCH_DEPTH b NegInf PosInf true = Ok (Some col, score) /\
    is_valid_location b col = Ok true /\
    drop_piece b col AI_PIECE = Ok b' /\
    ai_turn_logic ss st = Ok ((set_turn ss PLAYER_PIECE, true), st') /\
    heap st' !! s_board ss = Some b'.
Proof. apply ai_turn_logic_moves_core. Qed.

Lemma ai_turn_logic_moves_witness :
  exists col score b' st',
    search SEARCH_DEPTH empty_board NegInf PosInf true = Ok (Some col, score) /\
    is_valid_location empty_board col = Ok true /\
    drop_piece empty_board col AI_PIECE = Ok b' /\
    ai_turn_logic new_session (init_state empty_board)
    = Ok ((set_turn new_session PLAYER_PIECE, true), st') /\
    heap st' !! 0%nat = Some b'.
Proof.
  apply (ai_turn_logic_moves new_session empty_board (init_state empty_board)
           eq_refl wf_empty_board).
  vm_compute. reflexivity.
Defined.

Lemma ai_turn_logic_game_over_core (ss : session) (b : board) (st : state) :
  heap st !! s_board ss = Some b -> wf_board b ->
  is_terminal_node b = Ok true ->
  exists wp wa,
    is_winning_move b PLAYER_PIECE = Ok wp /\
    is_winning_move b AI_PIECE = Ok wa /\
    ai_turn_logic ss st
    = Ok ((set_over ss (if wp then PLAYER_PIECE
                        else if wa then AI_PIECE else EMPTY), false), st).
Proof.
  intros Hl Hwf Ht.
  destruct (is_terminal_node_spec b true Hwf Ht)
    as (wp & wa & vs & Hwp & Hwa & Hvs & Heq).
  exists wp, wa. split; [assumption |]. split; [assumption |].
  destruct (leaf_score_ok b true Hwf) as [z Hz].
  assert (Hm : minimax SEARCH_DEPTH (s_board ss) NegInf PosInf true st
               = Ok ((None, Fin z), st)).
  { rewrite (minimax_leaf SEARCH_DEPTH (s_board ss) b NegInf PosInf true st
               vs true Hl Hvs Ht) by auto.
    now apply lift_ok. }
  unfold ai_turn_logic. rewrite (mbind_ok _ _ _ _ _ Hm). cbn [fst].
  destruct (check_game_state_terminal_core (s_board ss) ss b st Hl Hwf)
    as (t' & wp' & wa' & Ht' & Hwp' & Hwa' & Hc).
  assert (t' = true) by congruence. assert (wp' = wp) by congruence.
  assert (wa' = wa) by congruence. subst t' wp' wa'.
  rewrite (mbind_ok _ _ _ _ _ Hc). reflexivity.
Qed.

(** X14. The AI's turn on a terminal board: the search returns no column,
    so the shell makes no move and asks for no rerun; it runs
    [check_game_state], which sets the game-over flag and the winner. The
    board and the turn are left as they were. *)
Theorem ai_turn_logic_game_over (ss : session) (b : board) (st : state) :
  heap st !! s_board ss = Some b -> wf_board b ->
  is_terminal_node b = Ok true ->
  exists wp wa,
    is_winning_move b PLAYER_PIECE = Ok wp /\
    is_winning_move b AI_PIECE = Ok wa /\
    ai_turn_logic ss st
    = Ok ((set_over ss (if wp then PLAYER_PIECE
                        else if wa then AI_PIECE else EMPTY), false), st).
Proof. apply ai_turn_logic_game_over_core. Qed.

Lemma ai_turn_logic_game_over_witness :
  ai_turn_logic new_session (init_state full_board_draw)
  = Ok ((set_over new_session EMPTY, false), init_state full_board_draw).
Proof.
  destruct (ai_turn_logic_game_over new_session full_board_draw
              (init_state full_board_draw) eq_refl wf_full_board_draw)
    as (wp & wa & Hwp & Hwa & Hc).
  - vm_compute. reflexivity.
  - vm_compute in Hwp, Hwa. injection Hwp as <-. injection Hwa as <-.
    exact Hc.
Defined.

(** ** The heuristic does not depend on the order of the cells *)

Lemma count_permutation (l l' : list Z) (x : Z) :
  l ≡ₚ l' -> count l x = count l' x.
Proof.
  induction 1 as [| y l l' _ IH | y z l | l l' l'' _ IH1 _ IH2]; simpl;
    [reflexivity | now rewrite IH | lia | congruence].
Qed.

(** X15. [evaluate_window] looks only at how many cells of each kind the
    window holds: two windows with the same cells in a different order get
    the same value. *)
Theorem evaluate_window_permutation (w w' : list Z) (piece : Z) :
  w ≡ₚ w' -> evaluate_window w piece = evaluate_window w' piece.
Proof.
  intros Hp. unfold evaluate_window.
  now rewrite !(count_permutation w w' _ Hp).
Qed.

Lemma evaluate_window_permutation_witness :
  evaluate_window [AI_PIECE; EMPTY; AI_PIECE; AI_PIECE] AI_PIECE
  = evaluate_window [EMPTY; AI_PIECE; AI_PIECE; AI_PIECE] AI_PIECE.
Proof.
  apply (evaluate_window_permutation
           [AI_PIECE; EMPTY; AI_PIECE; AI_PIECE]
           [EMPTY; AI_PIECE; AI_PIECE; AI_PIECE] AI_PIECE).
  apply perm_swap.
Defined.

(** ** A four-in-a-row stays *)

Lemma drop_piece_keeps_pieces (b b' : board) (col : nat) (q : Z)
    (r c : nat) (p : Z) :
  wf_board b -> is_valid_location b col = Ok true ->
  drop_piece b col q = Ok b' ->
  p <> EMPTY -> get b r c = Ok p -> get b' r c = Ok p.
Proof.
  intros Hwf Hopen Hdrop Hp Hget.
  destruct (drop_piece_ok b col q Hwf Hopen)
    as (row & b0 & _ & Hdrop0 & _ & Hempty & _ & Hframe).
  rewrite Hdrop in Hdrop0. injection Hdrop0 as <-.
  destruct (decide ((r, c) = (row, col))) as [Heq | Hne].
  - injection Heq as -> ->. congruence.
  - now rewrite (Hframe r c Hne).
Qed.

(** X16. A four-in-a-row is never undone by a later move: if a side has
    four in a line, it still has it after any piece is dropped into any
    open column. *)
Theorem win_is_permanent (b b' : board) (col : nat) (p q : Z) :
  wf_board b -> is_valid_location b col = Ok true ->
  p <> EMPTY ->
  is_winning_move b p = Ok true ->
  drop_piece b col q = Ok b' ->
  is_winning_move b' p = Ok true.
Proof.
  intros Hwf Hopen Hp Hwin Hdrop.
  pose proof (drop_piece_wf b b' col q Hwf Hdrop) as Hwf'.
  assert (Hkeep : forall r c, get b r c = Ok p -> get b' r c = Ok p)
    by (intros r c Hrc;
        exact (drop_piece_keeps_pieces b b' col q r c p Hwf Hopen Hdrop Hp Hrc)).
  apply (is_winning_move_line b p Hwf) in Hwin.
  apply (is_winning_move_line b' p Hwf').
  destruct Hwin as (r & c & [(Hr & Hc & Hw) | [(Hr & Hc & Hw)
                     | [(Hr & Hc & Hw) | (Hr & Hc & Hw)]]]);
    exists r, c; [left | right; left | right; right; left | right; right; right];
    (split; [assumption |]); (split; [assumption |]);
    intros i Hi; apply Hkeep, Hw, Hi.
Qed.

Lemma win_is_permanent_witness :
  is_winning_move
    [[2; 2; 2; 2; 1; 1; 1]; [0; 0; 0; 0; 1; 0; 0]; [0; 0; 0; 0; 0; 0; 0];
     [0; 0; 0; 0; 0; 0; 0]; [0; 0; 0; 0; 0; 0; 0]; [0; 0; 0; 0; 0; 0; 0]]
    AI_PIECE = Ok true.
Proof.
  apply (win_is_permanent
           [[2; 2; 2; 2; 1; 1; 1]; [0; 0; 0; 0; 0; 0; 0];
            [0; 0; 0; 0; 0; 0; 0]; [0; 0; 0; 0; 0; 0; 0];
            [0; 0; 0; 0; 0; 0; 0]; [0; 0; 0; 0; 0; 0; 0]]
           _ 4 AI_PIECE PLAYER_PIECE).
  - split; [reflexivity | repeat constructor].
  - vm_compute. reflexivity.
  - discriminate.
  - vm_compute. reflexivity.
  - vm_compute. reflexivity.
Defined.

(** ** The board of the session *)

(** X17. The shell keeps the session's board well formed: after a click on
    a column button, and after the AI's turn, the session still points to
    the same board object, which is a 6 x 7 board that respects gravity
    and holds the pieces it held plus at most one. *)
Theorem shell_keeps_board (ss : session) (b : board) (st : state) :
  heap st !! s_board ss = Some b -> wf_board b -> gravity b = true ->
  (forall col ss' st',
     (col < COLUMN_COUNT)%nat ->
     player_move_callback col ss st = Ok (ss', st') ->
     s_board ss' = s_board ss /\
     exists b', heap st' !! s_board ss = Some b' /\
       wf_board b' /\ gravity b' = true /\
       empties b - 1 <= empties b' <= empties b) /\
  (forall ss' rerun st',
     ai_turn_logic ss st = Ok ((ss', rerun), st') ->
     s_board ss' = s_board ss /\
     exists b', heap st' !! s_board ss = Some b' /\
       wf_board b' /\ gravity b' = true /\
       empties b - 1 <= empties b' <= empties b).
Proof.
  intros Hl Hwf Hg.
  assert (Hsame : exists b', heap st !! s_board ss = Some b' /\
            wf_board b' /\ gravity b' = true /\
            empties b - 1 <= empties b' <= empties b)
    by (exists b; split; [exact Hl |]; split; [exact Hwf |];
        split; [exact Hg | lia]).
  assert (Hmoved : forall col piece b' (h : list (list (list Z))),
            piece <> EMPTY -> is_valid_location b col = Ok true ->
            drop_piece b col piece = Ok b' ->
            h !! s_board ss = Some b ->
            exists b0, <[s_board ss := b']> h !! s_board ss = Some b0 /\
              wf_board b0 /\ gravity b0 = true /\
              empties b - 1 <= empties b0 <= empties b).
  { intros col piece b' h Hpiece Hopen Hdrop Hh.
    destruct (drop_piece_keeps_gravity_core b b' col piece Hwf Hg Hopen
                Hpiece Hdrop) as [Hwf' Hg'].
    pose proof (drop_piece_empties b b' col piece Hwf Hopen Hpiece Hdrop).
    exists b'. split.
    - apply list_lookup_insert_eq. now apply lookup_lt_Some in Hh.
    - split; [exact Hwf' |]. split; [exact Hg' | lia]. }
  split.
  - intros col ss' st' Hcol Hcall.
    pose proof (player_move_callback_effect_core col ss b st Hl Hwf Hcol)
      as Heff.
    destruct ((s_turn ss =? PLAYER_PIECE) && is_open b col) eqn:Hcond.
    + destruct Heff as (b' & Hdrop & Heff). rewrite Heff in Hcall.
      injection Hcall as <- <-. split; [reflexivity |]. cbn [heap].
      apply andb_true_iff in Hcond as [_ Hopen]. unfold is_open in Hopen.
      destruct (is_valid_location b col) as [[|] | e] eqn:Hv;
        try discriminate.
      apply (Hmoved col PLAYER_PIECE b'); try discriminate; auto.
    + rewrite Heff in Hcall. injection Hcall as <- <-. auto.
  - intros ss' rerun st' Hcall.
    destruct (is_terminal_node_ok b Hwf) as [[|] Ht].
    + destruct (ai_turn_logic_game_over_core ss b st Hl Hwf Ht)
        as (wp & wa & _ & _ & Hover).
      rewrite Hover in Hcall. injection Hcall as <- _ <-. auto.
    + destruct (ai_turn_logic_moves_core ss b st Hl Hwf Ht)
        as (col & score & b' & st1 & _ & Hopen & Hdrop & Hmove & Hb').
      rewrite Hmove in Hcall. injection Hcall as <- _ <-.
      split; [reflexivity |].
      destruct (drop_piece_keeps_gravity_core b b' col AI_PIECE Hwf Hg Hopen
                  ltac:(discriminate) Hdrop) as [Hwf' Hg'].
      pose proof (drop_piece_empties b b' col AI_PIECE Hwf Hopen
                    ltac:(discriminate) Hdrop).
      exists b'. split; [exact Hb' |]. split; [exact Hwf' |].
      split; [exact Hg' | lia].
Qed.

Lemma shell_keeps_board_witness :
  exists b', heap (mkState (<[0%nat := [[0; 0; 0; 1; 0; 0; 0];
                                        [0; 0; 0; 0; 0; 0; 0];
                                        [0; 0; 0; 0; 0; 0; 0];
                                        [0; 0; 0; 0; 0; 0; 0];
                                        [0; 0; 0; 0; 0; 0; 0];
                                        [0; 0; 0; 0; 0; 0; 0]]]>
                              [empty_board]) (fun _ => 0%nat))
               !! 0%nat = Some b' /\
    wf_board b' /\ gravity b' = true /\
    empties empty_board - 1 <= empties b' <= empties empty_board.
Proof.
  destruct (shell_keeps_board new_session empty_board (init_state empty_board)
              eq_refl wf_empty_board eq_refl) as [Hclick _].
  apply (Hclick 3%nat (set_turn new_session AI_PIECE)).
  - unfold COLUMN_COUNT. lia.
  - vm_compute. reflexivity.
Defined.

(** X18. The game flow of [main]: on a terminal board it records the end
    of the game and makes no move; on a board that is not terminal, when it
    is the AI's turn and the game is not marked over, the AI moves and the
    turn passes to the player; in every other case nothing changes. So
    whenever [main] runs the AI's turn, the AI makes a move. *)
Theorem main_game_flow_cases (ss : session) (b : board) (st : state) :
  heap st !! s_board ss = Some b -> wf_board b ->
  exists t wp wa,
    is_terminal_node b = Ok t /\
    is_winning_move b PLAYER_PIECE = Ok wp /\
    is_winning_move b AI_PIECE = Ok wa /\
    if t then
      main_game_flow ss st
      = Ok ((set_over ss (if wp then PLAYER_PIECE
                          else if wa then AI_PIECE else EMPTY), false), st)
    else if (s_turn ss =? AI_PIECE) && negb (s_game_over ss) then
      exists col score b' st',
        search SEARCH_DEPTH b NegInf PosInf true = Ok (Some col, score) /\
        drop_piece b col AI_PIECE = Ok b' /\
        main_game_flow ss st = Ok ((set_turn ss PLAYER_PIECE, true), st') /\
        heap st' !! s_board ss = Some b'
    else main_game_flow ss st = Ok ((ss, false), st).
Proof.
  intros Hl Hwf.
  destruct (check_game_state_terminal_core (s_board ss) ss b st Hl Hwf)
    as (t & wp & wa & Ht & Hwp & Hwa & Hc).
  exists t, wp, wa. repeat (split; [assumption |]).
  unfold main_game_flow. rewrite (mbind_ok _ _ _ _ _ Hc).
  destruct t.
  - cbn [set_over s_turn s_game_over negb]. rewrite andb_false_r. reflexivity.
  - destruct ((s_turn ss =? AI_PIECE) && negb (s_game_over ss));
      [| reflexivity].
    destruct (ai_turn_logic_moves_core ss b st Hl Hwf Ht)
      as (col & score & b' & st' & Hs & _ & Hdrop & Hmove & Hb').
    exists col, score, b', st'. auto.
Qed.

Lemma main_game_flow_cases_witness :
  (exists col score b' st',
     search SEARCH_DEPTH midgame_board NegInf PosInf true
     = Ok (Some col, score) /\
     drop_piece midgame_board col AI_PIECE = Ok b' /\
     main_game_flow (set_turn new_session AI_PIECE)
       (init_state midgame_board)
     = Ok ((set_turn (set_turn new_session AI_PIECE) PLAYER_PIECE, true),
           st') /\
     heap st' !! s_board (set_turn new_session AI_PIECE) = Some b') /\
  main_game_flow (set_turn new_session AI_PIECE)
    (init_state full_board_draw)
  = Ok ((set_over (set_turn new_session AI_PIECE) EMPTY, false),
        init_state full_board_draw).
Proof.
  assert (Hwf : wf_board midgame_board).
  { split; [reflexivity |].
    repeat apply Forall_cons_2; try apply Forall_nil_2; reflexivity. }
  split.
  - destruct (main_game_flow_cases (set_turn new_session AI_PIECE)
                midgame_board (init_state midgame_board) eq_refl Hwf)
      as (t & wp & wa & Ht & _ & _ & Hflow).
    assert (Hf : t = false) by (vm_compute in Ht; congruence).
    rewrite Hf in Hflow. exact Hflow.
  - destruct (main_game_flow_cases (set_turn new_session AI_PIECE)
                full_board_draw (init_state full_board_draw) eq_refl
                wf_full_board_draw)
      as (t & wp & wa & Ht & Hwp & Hwa & Hflow).
    assert (Hf : t = true) by (vm_compute in Ht; congruence).
    assert (Hp : wp = false) by (vm_compute in Hwp; congruence).
    assert (Ha : wa = false) by (vm_compute in Hwa; congruence).
    rewrite Hf, Hp, Ha in Hflow. exact Hflow.
Defined.

(** ** What a pruned score says inside any window *)

(** X19. For any window with alpha < beta, the score [minimax] returns
    bounds the plain minimax score [v] of the position: a score at or below
    alpha means [v] is at or below alpha, a score at or above beta means
    [v] is at or above beta, and a score strictly between them is [v]
    itself. *)
Theorem minimax_window_bounds (depth : nat) (l : loc) (b : board)
    (alpha beta : ext) (maximizing : bool) (st : state)
    (column : option nat) (score v : ext) :
  heap st !! l = Some b ->
  ext_ltb alpha beta = true ->
  run (minimax depth l alpha beta maximizing) st = Ok (column, score) ->
  plain_minimax depth b maximizing = Ok v ->
  (ext_ltb alpha score = false -> ext_ltb alpha v = false) /\
  (ext_ltb alpha score = true -> ext_ltb score beta = true -> v = score) /\
  (ext_ltb score beta = false -> ext_ltb v beta = false).
Proof.
  intros Hl Hlt Hrun Hv.
  apply (minimax_run_search _ _ _ _ _ _ _ _ Hl) in Hrun.
  exact (search_within depth b alpha beta maximizing _ v Hlt Hrun Hv).
Qed.

Lemma minimax_window_bounds_witness :
  (ext_ltb (Fin 0) (Fin 3) = false -> ext_ltb (Fin 0) (Fin 3) = false) /\
  (ext_ltb (Fin 0) (Fin 3) = true -> ext_ltb (Fin 3) (Fin 10) = true ->
   Fin 3 = Fin 3) /\
  (ext_ltb (Fin 3) (Fin 10) = false -> ext_ltb (Fin 3) (Fin 10) = false).
Proof.
  apply (minimax_window_bounds 2 0%nat empty_board (Fin 0) (Fin 10) true
           (init_state empty_board) (Some 3%nat) (Fin 3) (Fin 3)).
  - reflexivity.
  - reflexivity.
  - vm_compute. reflexivity.
  - vm_compute. reflexivity.
Defined.
